(** * The designer of langchain-testbench: template scanning and the editor session

    A shallow embedding of
      - [app/src/components/Designer.tsx]: the three template patterns and
        their reducers (LLM prompts, Reformat formatters, API fields) and the
        update effect of the API designer;
      - [app/src/contexts/ChainSpecContext.tsx]: the editor session that
        holds the committed and the working chain spec.

    Strings are [string]s of 8-bit characters, so a template is modelled for
    code units below 256.  A JavaScript [Set<string>] is a duplicate-free list
    in insertion order, which is the order [Array.from] returns.  A thrown
    [Error] is the [Throw] constructor of [Result]. *)

From Stdlib Require Import Strings.String Strings.Ascii Lists.List.
From Stdlib Require Import Arith.PeanoNat Bool.Bool Lia.
From Stdlib Require Import Numbers.DecimalString.
Import ListNotations.
Open Scope string_scope.

(* ================================================================= *)
(** ** Strings *)

Module Str.

Fixpoint takeWhile (p : ascii -> bool) (s : string) : string :=
  match s with
  | EmptyString => EmptyString
  | String c s' => if p c then String c (takeWhile p s') else EmptyString
  end.

Fixpoint dropWhile (p : ascii -> bool) (s : string) : string :=
  match s with
  | EmptyString => EmptyString
  | String c s' => if p c then dropWhile p s' else s
  end.

Fixpoint stripPrefix (pre s : string) : option string :=
  match pre, s with
  | EmptyString, _ => Some s
  | String a pre', String b s' =>
      if Ascii.eqb a b then stripPrefix pre' s' else None
  | String _ _, EmptyString => None
  end.

Fixpoint forallb (p : ascii -> bool) (s : string) : bool :=
  match s with
  | EmptyString => true
  | String c s' => p c && forallb p s'
  end.

Definition isEmpty (s : string) : bool :=
  match s with EmptyString => true | String _ _ => false end.

(** The first character satisfies [p]; false on the empty string. *)
Definition headIs (p : ascii -> bool) (s : string) : bool :=
  match s with EmptyString => false | String c _ => p c end.

Definition inRange (lo hi : nat) (c : ascii) : bool :=
  ((lo <=? nat_of_ascii c) && (nat_of_ascii c <=? hi))%nat.

(** [[A-Za-z0-9_]] *)
Definition isWordChar (c : ascii) : bool :=
  inRange 65 90 c || inRange 97 122 c || inRange 48 57 c || Ascii.eqb c "_".

(** [[_A-Za-z]] *)
Definition isWordStart (c : ascii) : bool :=
  inRange 65 90 c || inRange 97 122 c || Ascii.eqb c "_".

Definition isBrace (c : ascii) : bool := Ascii.eqb c "{" || Ascii.eqb c "}".

(** [[^\{\}]] *)
Definition notBrace (c : ascii) : bool := negb (isBrace c).

(** [[^:\{\}]] *)
Definition notColonBrace (c : ascii) : bool :=
  negb (Ascii.eqb c ":" || isBrace c).

(** The line terminators among the 8-bit characters, LF and CR: [.] matches
    neither.  The two other line terminators of the language, U+2028 and
    U+2029, are no 8-bit characters: the texts of this development do not
    contain them. *)
Definition isLineTerminator (c : ascii) : bool :=
  Ascii.eqb c (ascii_of_nat 10) || Ascii.eqb c (ascii_of_nat 13).

(** [.] up to the first closing brace, as the lazy [.*?] followed by [}]
    consumes it. *)
Definition lazyDot (c : ascii) : bool :=
  negb (Ascii.eqb c "}") && negb (isLineTerminator c).

Definition ofNat (n : nat) : string := NilEmpty.string_of_uint (Nat.to_uint n).

End Str.

(* ================================================================= *)
(** ** JavaScript values the code relies on *)

(** [Set<string>]: insertion ordered, no duplicates. *)
Definition StrSet := list string.

Definition set_has (s : StrSet) (x : string) : bool :=
  existsb (String.eqb x) s.

Definition set_add (s : StrSet) (x : string) : StrSet :=
  if set_has s x then s else (s ++ [x])%list.

(** [Array.from(set)] *)
Definition Array_from (s : StrSet) : list string := s.

(** [x || d] on an optional string: [undefined] and [''] are falsy. *)
Definition orElse (x : option string) (d : string) : string :=
  match x with
  | None => d
  | Some s => if Str.isEmpty s then d else s
  end.

(** [`${x}`] on an optional string. *)
Definition show (x : option string) : string :=
  match x with None => "undefined" | Some s => s end.

(** [x === lit] on an optional string. *)
Definition strictEq (x : option string) (lit : string) : bool :=
  match x with None => false | Some s => String.eqb s lit end.

Inductive Result (A : Type) : Type :=
| Ok (a : A)
| Throw (message : string).
Arguments Ok {A} a.
Arguments Throw {A} message.

(* ================================================================= *)
(** ** [String.prototype.replace] with a global pattern and a callback *)

Section Replace.
Context {G S : Type}.

(** The pattern tried at the head of the text: the captured groups and the
    text after the match. *)
Variable matchAt : string -> option (G * string).

(** The callback, threading a state: the new state and the replacement. *)
Variable callback : S -> G -> S * string.

(** The pass over the text: where the pattern matches at the head, the
    callback gives the replacement and the pass goes on after the match;
    where it does not, the first character is copied and the pass goes on
    after it.  None of the patterns below matches the empty text. *)
Fixpoint replaceFuel (fuel : nat) (st : S) (s : string) : S * string :=
  match s with
  | EmptyString => (st, EmptyString)
  | String c s' =>
      match fuel with
      | 0 => (st, s)
      | Datatypes.S fuel' =>
          match matchAt s with
          | Some (g, rest) =>
              let (st1, r) := callback st g in
              let (st2, out) := replaceFuel fuel' st1 rest in
              (st2, r ++ out)
          | None =>
              let (st2, out) := replaceFuel fuel' st s' in
              (st2, String c out)
          end
      end
  end.

(** Every match consumes a character, so the length of the text is fuel
    enough (see [replaceFuel_enough]). *)
Definition replaceAll (st : S) (s : string) : S * string :=
  replaceFuel (String.length s) st s.
End Replace.

(* ================================================================= *)
(** ** Designer.tsx: the extended formatter of Reformat specs *)

(** The arguments the pattern hands to the reducer after the state: the
    match and the six groups of [extendedFormatterRegex]. *)
Record ExtMatch : Type := mkExtMatch {
  matched : string;
  exprType : option string;
  exprParam1 : option string;
  ep2Group : option string;
  exprParam2 : option string;
  stdExpr : option string;
  stdExprVar : option string
}.

(** The groups of a directive with one argument. *)
Definition directive1 (d x : string) : ExtMatch :=
  mkExtMatch ("{" ++ d ++ ":" ++ x ++ "}") (Some d) (Some x) None None None None.

(** The groups of a directive with two arguments. *)
Definition directive2 (d x y : string) : ExtMatch :=
  mkExtMatch ("{" ++ d ++ ":" ++ x ++ ":" ++ y ++ "}")
    (Some d) (Some x) (Some (":" ++ y)) (Some y) None None.

(** The groups of a bracket that is no directive. *)
Definition bracket (v : string) : ExtMatch :=
  mkExtMatch ("{" ++ v ++ "}") None None None None (Some ("{" ++ v ++ "}")) (Some v).

(** The alternation [(join|parse_json|let|expr|int|float)], in its order. *)
Definition directives : list string :=
  ["join"; "parse_json"; "let"; "expr"; "int"; "float"].

(** [([^:\{\}]+)]: greedy and not empty.  The run is followed by a colon, a
    brace or the end of the text; a shorter run would be followed by a
    character of the run itself, which can start neither [:...] nor [}], so
    backtracking into the run never succeeds and the longest run decides. *)
Definition matchParam (s : string) : option (string * string) :=
  let p := Str.takeWhile Str.notColonBrace s in
  if Str.isEmpty p then None else Some (p, Str.dropWhile Str.notColonBrace s).

(** [([^:\{\}]+)(:([^:\{\}]+))?\}] after [{d:]. *)
Definition matchDirectiveArgs (d s : string) : option (ExtMatch * string) :=
  match matchParam s with
  | None => None
  | Some (p1, r) =>
      match r with
      | String c r1 =>
          if Ascii.eqb c "}" then
            Some (directive1 d p1, r1)
          else if Ascii.eqb c ":" then
            match matchParam r1 with
            | Some (p2, String c2 rest) =>
                if Ascii.eqb c2 "}" then
                  Some (directive2 d p1 p2, rest)
                else None
            | _ => None
            end
          else None
      | EmptyString => None
      end
  end.

(** The first alternative after the opening brace: the directive words are
    tried in order, the next one when the rest of the alternative fails. *)
Fixpoint matchDirective (ds : list string) (s : string)
  : option (ExtMatch * string) :=
  match ds with
  | [] => None
  | d :: ds' =>
      match Str.stripPrefix (d ++ ":") s with
      | Some args =>
          match matchDirectiveArgs d args with
          | Some r => Some r
          | None => matchDirective ds' s
          end
      | None => matchDirective ds' s
      end
  end.

(** The second alternative after the opening brace: any run of characters
    other than braces (group 6), possibly empty, and the closing brace. *)
Definition matchStd (s : string) : option (ExtMatch * string) :=
  let v := Str.takeWhile Str.notBrace s in
  match Str.dropWhile Str.notBrace s with
  | String c rest =>
      if Ascii.eqb c "}" then
        Some (bracket v, rest)
      else None
  | EmptyString => None
  end.

(** [extendedFormatterRegex] at the head of the text: the directive
    alternative [\{(join|parse_json|let|expr|int|float):([^:\{\}]+)(:([^:\{\}]+))?\}]
    first, the bracket alternative (groups 5 and 6) when it fails. *)
Definition extendedFormatterRegex (s : string) : option (ExtMatch * string) :=
  match s with
  | String c s1 =>
      if Ascii.eqb c "{" then
        match matchDirective directives s1 with
        | Some r => Some r
        | None => matchStd s1
        end
      else None
  | EmptyString => None
  end.

(** The outcome of a match with an opening brace and [x] appended to what
    remains of the text. *)
Definition extend (x : string) (r : option (ExtMatch * string))
  : option (ExtMatch * string) :=
  match r with
  | Some (m, rest) => Some (m, rest ++ String "{" x)
  | None => None
  end.

(** [expr.match(/^[_A-Za-z0-9]+/)?.[0] || ''] and the rest of [expr]. *)
Definition parseFormatExpression (expr : string) : string * string :=
  (Str.takeWhile Str.isWordChar expr, Str.dropWhile Str.isWordChar expr).

(** [set2.has(item) ? set1 : set1.add(item)] *)
Definition condAdd (set1 set2 : StrSet) (item : string) : StrSet :=
  if set_has set2 item then set1 else set_add set1 item.

Definition ExtendedFormatterState : Type := StrSet * StrSet.

(** [/[_A-Za-z][_A-Za-z0-9]*/g] at the head of the text. *)
Definition identifierRegex (s : string) : option (string * string) :=
  match s with
  | String c s' =>
      if Str.isWordStart c then
        Some (String c (Str.takeWhile Str.isWordChar s'),
              Str.dropWhile Str.isWordChar s')
      else None
  | EmptyString => None
  end.

(** The double quote of the markup. *)
Definition dq : string := String (ascii_of_nat 34) EmptyString.

(** [<span class="cls">body</span>] *)
Definition span (cls body : string) : string :=
  "<span class=" ++ dq ++ cls ++ dq ++ ">" ++ body ++ "</span>".

Definition spanVar (variable : string) : string := span "var-name" variable.

Definition spanExpr (body : string) : string := span "expr" ("{" ++ body ++ "}").

Definition errorToken : string := span "error" "ERROR".

(** The four directives of the first branch of the reducer. *)
Definition binders : list string := ["parse_json"; "let"; "int"; "float"].

(** The callback of [exprParam1?.replace(identifiers, ...)] in the [expr]
    branch: [condAdd] mutates [newInputs]; [newInternal] is only read. *)
Definition exprIdentifier (newInternal : StrSet) (newInputs : StrSet)
    (variable : string) : StrSet * string :=
  (condAdd newInputs newInternal variable, spanVar variable).

Definition extendedFormatterReduceFunc (state : ExtendedFormatterState)
    (m : ExtMatch) : ExtendedFormatterState * string :=
  let '(inputs, internal) := state in
  let newInputs := inputs in
  let newInternal := internal in
  if strictEq (exprType m) "parse_json" || strictEq (exprType m) "let"
     || strictEq (exprType m) "int" || strictEq (exprType m) "float" then
    let '(variable, expr) := parseFormatExpression (orElse (exprParam1 m) EmptyString) in
    let newInputs := condAdd newInputs newInternal variable in
    let newInternal := set_add newInternal (orElse (exprParam2 m) "data") in
    ((newInputs, newInternal),
     spanExpr (show (exprType m) ++ ":" ++ spanVar variable ++ expr ++ ":"
               ++ show (exprParam2 m)))
  else if strictEq (exprType m) "join" then
    let '(variable, expr) := parseFormatExpression (orElse (exprParam1 m) EmptyString) in
    let newInputs := condAdd newInputs newInternal variable in
    let newInternal := set_add (set_add newInternal "item") "index" in
    ((newInputs, newInternal),
     spanExpr (show (exprType m) ++ ":" ++ spanVar variable ++ expr ++ ":"
               ++ show (exprParam2 m)))
  else if strictEq (exprType m) "expr" then
    let '(newInputs, formatted) :=
      match exprParam1 m with
      | Some p1 =>
          let (ins, out) :=
            replaceAll identifierRegex (exprIdentifier newInternal) newInputs p1 in
          (ins, Some out)
      | None => (newInputs, None)
      end in
    let newInternal := set_add newInternal (orElse (exprParam2 m) "data") in
    ((newInputs, newInternal),
     spanExpr (show (exprType m) ++ ":" ++ show formatted ++ ":"
               ++ show (exprParam2 m)))
  else if negb (Str.isEmpty (orElse (stdExpr m) EmptyString)) then
    let '(variable, expr) := parseFormatExpression (orElse (stdExprVar m) EmptyString) in
    ((condAdd newInputs newInternal variable, newInternal),
     spanExpr (spanVar variable ++ expr))
  else
    ((newInputs, newInternal), errorToken).

(* ================================================================= *)
(** ** Designer.tsx: LLM prompts and API fields *)

(** The pattern of [LLMSpecDesigner], an opening brace, a lazy [.*?]
    (group 1) and a closing brace, at the head of the text: the match and
    group 1. *)
Definition llmPromptRegex (s : string) : option ((string * string) * string) :=
  match s with
  | String c s1 =>
      if Ascii.eqb c "{" then
        let v := Str.takeWhile Str.lazyDot s1 in
        match Str.dropWhile Str.lazyDot s1 with
        | String c2 rest =>
            if Ascii.eqb c2 "}" then Some (("{" ++ v ++ "}", v), rest) else None
        | EmptyString => None
        end
      else None
  | EmptyString => None
  end.

(** [(variables, _, variable) => [variables.add(variable), ...]] *)
Definition llmReduceFunc (variables : StrSet) (m : string * string)
  : StrSet * string :=
  let variable := snd m in
  (set_add variables variable, spanExpr (spanVar variable)).

(** [/\{([a-zA-Z0-9_]+)\}/g] of [APISpecDesigner] at the head of the text. *)
Definition apiVarRegex (s : string) : option (string * string) :=
  match s with
  | String c s1 =>
      if Ascii.eqb c "{" then
        let v := Str.takeWhile Str.isWordChar s1 in
        match Str.dropWhile Str.isWordChar s1 with
        | String c2 rest =>
            if Ascii.eqb c2 "}" && negb (Str.isEmpty v) then Some (v, rest)
            else None
        | EmptyString => None
        end
      else None
  | EmptyString => None
  end.

(** [const add = (_, ...matches) => { vars.add(matches[0]); return ""; }] *)
Definition apiAdd (vars : StrSet) (v : string) : StrSet * string :=
  (set_add vars v, EmptyString).

(* ================================================================= *)
(** ** util/FormatReducer *)

(** Modelled from the spec: the class [FormatReducer] of
    [app/src/util/FormatReducer.ts] is not among the sources.  Section 4.2 of
    the specification: given a pattern, an initial-state constructor, a
    reduction function and a finalize callback, one left-to-right pass
    replaces every matched token with the rendered token and threads the
    state between the matches, unmatched text passes through unchanged, and
    finalize runs once on the final state. *)
Record FormatReducer (G S F : Type) : Type := {
  fr_regex : string -> option (G * string);
  fr_initialState : S;
  fr_reduceFunc : S -> G -> S * string;
  fr_finalize : S -> F
}.
Arguments fr_regex {G S F} _.
Arguments fr_initialState {G S F} _.
Arguments fr_reduceFunc {G S F} _.
Arguments fr_finalize {G S F} _.

(** Modelled from the spec: the method of [FormatReducer] that scans a text
    (section 4.2, the single left-to-right pass): the rendering of the text
    and what finalize was called with. *)
Definition FormatReducer_reduce {G S F : Type} (r : FormatReducer G S F)
    (text : string) : string * F :=
  let (final, rendered) :=
    replaceAll (fr_regex r) (fr_reduceFunc r) (fr_initialState r) text in
  (rendered, fr_finalize r final).

(** The reducer of [ReformatSpecDesigner]; finalize is
    [setVariables(Array.from(inputs))]. *)
Definition reformatFormatReducer
  : FormatReducer ExtMatch ExtendedFormatterState (list string) :=
  {| fr_regex := extendedFormatterRegex;
     fr_initialState := ([], []);
     fr_reduceFunc := extendedFormatterReduceFunc;
     fr_finalize := fun st => Array_from (fst st) |}.

(** The reducer of [LLMSpecDesigner]; finalize is
    [setVariables(Array.from(variables))] behind a zero timeout. *)
Definition llmFormatReducer : FormatReducer (string * string) StrSet (list string) :=
  {| fr_regex := llmPromptRegex;
     fr_initialState := [];
     fr_reduceFunc := llmReduceFunc;
     fr_finalize := Array_from |}.

(** The [variables] a formatter text leaves in a Reformat designer, which its
    update effect writes to [input_keys]. *)
Definition reformatInputKeys (template : string) : list string :=
  snd (FormatReducer_reduce reformatFormatReducer template).

(** The [variables] a prompt leaves in an LLM designer. *)
Definition llmInputKeys (prompt : string) : list string :=
  snd (FormatReducer_reduce llmFormatReducer prompt).

(** Modelled from the spec: the pass of section 4.2 with the pattern and the
    reducer of the Reformat designer, from a given state, as the text after
    earlier matches is scanned: the final state and the rendering. *)
Definition extendedScan (state : ExtendedFormatterState) (text : string)
  : ExtendedFormatterState * string :=
  replaceAll extendedFormatterRegex extendedFormatterReduceFunc state text.

(** Modelled from the spec: the pass of section 4.2 with the pattern and the
    reducer of the LLM designer, from a given state. *)
Definition llmScan (variables : StrSet) (text : string) : StrSet * string :=
  replaceAll llmPromptRegex llmReduceFunc variables text.


(* ================================================================= *)
(** ** model/specs: the chain spec tree *)

(** Modelled from the spec: the type declarations of [app/src/model/specs.ts]
    are not among the sources.  Section 3 of the specification: every variant
    carries a [chain_id]; an LLM spec has a prompt, an [llm_key], an
    [output_key] and [input_keys]; a Sequential spec an ordered sequence of
    chains; a Case spec a [categorization_key], a mapping from label to chain
    (iterated in insertion order) and an optional [default_case]; a Reformat
    spec a mapping from output key to format text and [input_keys]; an API
    spec a url, a method, headers (string to string), an optional body, an
    [output_key] and [input_keys].  The constructors are named after the
    [chain_type] tags the designer switches on. *)
Definition Headers : Type := list (string * string).

(** Modelled from the spec: the LLM spec of section 3. *)
Record LLMSpec : Type := mkLLMSpec {
  llm_chain_id : nat;
  llm_input_keys : list string;
  prompt : string;
  llm_key : string;
  llm_output_key : string
}.

(** Modelled from the spec: the Reformat spec of section 3. *)
Record ReformatSpec : Type := mkReformatSpec {
  reformat_chain_id : nat;
  reformat_input_keys : list string;
  formatters : list (string * string)
}.

(** Modelled from the spec: the API spec of section 3. *)
Record APISpec : Type := mkAPISpec {
  api_chain_id : nat;
  api_input_keys : list string;
  url : string;
  method : string;
  headers : Headers;
  body : option string;
  api_output_key : string
}.

#[local] Unset Elimination Schemes.
(** Modelled from the spec: the tagged union of section 3; a Sequential spec
    and a Case spec own their children. *)
Inductive ChainSpec : Type :=
| llm_spec (spec : LLMSpec)
| sequential_spec (id : nat) (chains : list ChainSpec)
| case_spec (id : nat) (categorization_key : string)
    (cases : list (string * ChainSpec)) (default_case : option ChainSpec)
| reformat_spec (spec : ReformatSpec)
| api_spec (spec : APISpec).
#[local] Set Elimination Schemes.

(** [spec.chain_id], the field all variants share. *)
Definition chain_id (spec : ChainSpec) : nat :=
  match spec with
  | llm_spec s => llm_chain_id s
  | sequential_spec id _ => id
  | case_spec id _ _ _ => id
  | reformat_spec s => reformat_chain_id s
  | api_spec s => api_chain_id s
  end.

(** The ids of all nodes of a tree, in depth-first order. *)
Fixpoint chainIds (spec : ChainSpec) : list nat :=
  chain_id spec ::
  match spec with
  | sequential_spec _ chains => flat_map chainIds chains
  | case_spec _ _ cases default_case =>
      (flat_map (fun kc => chainIds (snd kc)) cases ++
       match default_case with Some d => chainIds d | None => [] end)%list
  | _ => []
  end.

(* ================================================================= *)
(** ** model/spec_control: find, replace and insert *)

Module SpecControl.

Section Children.
Context {A B : Type}.
Variable search : A -> option B.
Variable rebuild : A -> A * bool.

(** Modelled from the spec: the scan of the children of a container in
    order (section 4.4): the first child for which the search succeeds. *)
Fixpoint findFirst (l : list A) : option B :=
  match l with
  | [] => None
  | x :: l' =>
      match search x with
      | Some r => Some r
      | None => findFirst l'
      end
  end.

(** Modelled from the spec: the children of a container rebuilt (section
    4.4): the first child that reports a replacement is rebuilt, the ones
    after it are kept as they are. *)
Fixpoint replaceFirst (l : list A) : list A * bool :=
  match l with
  | [] => ([], false)
  | x :: l' =>
      let (x', found) := rebuild x in
      if found then (x' :: l', true)
      else let (l'', found') := replaceFirst l' in (x' :: l'', found')
  end.
End Children.

(** Modelled from the spec: [findByChainId] of [app/src/model/spec_control.ts]
    is not among the sources.  Section 4.4 of the specification: depth-first
    traversal; a node matches if its own [chain_id] is the id, checked before
    descending into it; a Sequential spec scans [chains] in order, a Case
    spec its cases in map order and then [default_case]; the first match is
    returned. *)
Fixpoint findByChainId (chainId : nat) (spec : ChainSpec) : option ChainSpec :=
  if (chain_id spec =? chainId)%nat then Some spec
  else
    match spec with
    | sequential_spec _ chains => findFirst (findByChainId chainId) chains
    | case_spec _ _ cases default_case =>
        match findFirst (fun kc => findByChainId chainId (snd kc)) cases with
        | Some r => Some r
        | None =>
            match default_case with
            | Some d => findByChainId chainId d
            | None => None
            end
        end
    | _ => None
    end.

(** Modelled from the spec: the search of [updateChainSpec] below one tree.
    Section 4.4: depth-first search as in find; the located node is
    substituted whole at its position and the ancestors are rebuilt; when no
    node matches, found is false. *)
Fixpoint replaceNode (new : ChainSpec) (spec : ChainSpec) : ChainSpec * bool :=
  if (chain_id spec =? chain_id new)%nat then (new, true)
  else
    match spec with
    | sequential_spec id chains =>
        let (chains', found) := replaceFirst (replaceNode new) chains in
        (sequential_spec id chains', found)
    | case_spec id key cases default_case =>
        let (cases', found) :=
          replaceFirst (fun kc => let (c', found) := replaceNode new (snd kc) in
                                  ((fst kc, c'), found)) cases in
        if found then (case_spec id key cases' default_case, true)
        else
          match default_case with
          | Some d =>
              let (d', found') := replaceNode new d in
              (case_spec id key cases' (Some d'), found')
          | None => (case_spec id key cases' None, false)
          end
    | _ => (spec, false)
    end.

(** Find and replace agree below a node: when the id of [new] does not occur,
    the replacement rebuilds the same tree and finds nothing, as find does;
    when it occurs, the replacement reports it and find returns [new] in the
    rebuilt tree. *)
Definition agrees (new t : ChainSpec) : Prop :=
  (~ In (chain_id new) (chainIds t) ->
     replaceNode new t = (t, false) /\ findByChainId (chain_id new) t = None)
  /\ (In (chain_id new) (chainIds t) ->
        snd (replaceNode new t) = true
        /\ findByChainId (chain_id new) (fst (replaceNode new t)) = Some new).

(** Modelled from the spec: the result of replace, the new tree and whether
    the node was found (section 4.4), as the object [{ found, chainSpec }]
    the session reads. *)
Record UpdateResult : Type := mkUpdateResult {
  found : bool;
  updated : option ChainSpec
}.

(** Modelled from the spec: [updateChainSpec] of
    [app/src/model/spec_control.ts] is not among the sources; the session
    calls it with its working tree, which may be [null], and the replacement,
    and reads [found] and [chainSpec] (here [updated]) off the result. *)
Definition updateChainSpec (tree : option ChainSpec) (spec : ChainSpec)
  : UpdateResult :=
  match tree with
  | None => mkUpdateResult false None
  | Some t => let (t', f) := replaceNode spec t in mkUpdateResult f (Some t')
  end.

(** Modelled from the spec: the default body of a new node is not given by
    the specification beyond its type and id; the model leaves every other
    field empty.  An unknown type has no default. *)
Definition defaultChainSpec (type : string) (id : nat) : option ChainSpec :=
  if type =? "llm_spec" then
    Some (llm_spec (mkLLMSpec id [] EmptyString EmptyString EmptyString))
  else if type =? "sequential_spec" then Some (sequential_spec id [])
  else if type =? "case_spec" then Some (case_spec id EmptyString [] None)
  else if type =? "reformat_spec" then Some (reformat_spec (mkReformatSpec id [] []))
  else if type =? "api_spec" then
    Some (api_spec (mkAPISpec id [] EmptyString EmptyString [] None EmptyString))
  else None.

(** Modelled from the spec: the new child at position [index] of the
    children, the index clamped to their number (section 4.4). *)
Definition splice {A : Type} (index : nat) (x : A) (l : list A) : list A :=
  (firstn index l ++ x :: skipn index l)%list.

(** Modelled from the spec: [insertChainSpec] of
    [app/src/model/spec_control.ts] is not among the sources.  Section 4.4:
    on an empty tree the parent and the index are ignored and the default
    node of the type, with the next id, is the new root; otherwise the node
    with the parent id is located, a Sequential spec gets the node spliced
    into [chains] at the index, a Case spec gets it as a new case at that
    position under a generated placeholder label (here [case_] and the new
    id), and any other target fails. *)
Definition insertChainSpec (tree : option ChainSpec) (nextId : nat)
    (type : string) (parentId index : nat) : Result ChainSpec :=
  match defaultChainSpec type nextId with
  | None => Throw ("Unknown chain type " ++ type)
  | Some new =>
      match tree with
      | None => Ok new
      | Some t =>
          match findByChainId parentId t with
          | Some (sequential_spec id chains) =>
              Ok (fst (replaceNode (sequential_spec id (splice index new chains)) t))
          | Some (case_spec id key cases default_case) =>
              Ok (fst (replaceNode
                         (case_spec id key
                            (splice index ("case_" ++ Str.ofNat nextId, new) cases)
                            default_case) t))
          | _ => Throw ("InvalidInsertTarget " ++ Str.ofNat parentId)
          end
      end
  end.

End SpecControl.

(* ================================================================= *)
(** ** util/sets: deepEquals *)

Module Sets.

(** [m[k]] on a string-keyed map. *)
Fixpoint assoc {A : Type} (k : string) (m : list (string * A)) : option A :=
  match m with
  | [] => None
  | (k', v) :: m' => if k =? k' then Some v else assoc k m'
  end.

(** Two arrays with equal elements at the same positions. *)
Fixpoint list_eqb {A : Type} (eqb : A -> A -> bool) (xs ys : list A) : bool :=
  match xs, ys with
  | [], [] => true
  | x :: xs', y :: ys' => eqb x y && list_eqb eqb xs' ys'
  | _, _ => false
  end.

(** Two optional values: both absent, or both present and equal. *)
Definition option_eqb {A : Type} (eqb : A -> A -> bool) (x y : option A) : bool :=
  match x, y with
  | None, None => true
  | Some a, Some b => eqb a b
  | _, _ => false
  end.

(** Modelled from the spec: two label-keyed maps compare independently of
    their order (section 4.4): as many entries, and every key of the first
    bound to an equal value in the second. *)
Definition map_eqb {A : Type} (eqb : A -> A -> bool) (m1 m2 : list (string * A))
  : bool :=
  (List.length m1 =? List.length m2)%nat &&
  List.forallb (fun kv => match assoc (fst kv) m2 with
                          | Some v2 => eqb (snd kv) v2
                          | None => false
                          end) m1.

(** Modelled from the spec: [deepEquals] of [app/src/util/sets.ts] is not
    among the sources.  Section 4.4, structuralEquals: two trees are equal
    iff their variant tags match and, recursively, Sequential children
    compare as ordered lists, Case [cases] compare as label-keyed maps
    (independent of order) plus [default_case], and all other fields compare
    by value. *)
Fixpoint structuralEquals (a b : ChainSpec) : bool :=
  match a, b with
  | llm_spec x, llm_spec y =>
      (llm_chain_id x =? llm_chain_id y)%nat
      && list_eqb String.eqb (llm_input_keys x) (llm_input_keys y)
      && (prompt x =? prompt y) && (llm_key x =? llm_key y)
      && (llm_output_key x =? llm_output_key y)
  | sequential_spec i xs, sequential_spec j ys =>
      (i =? j)%nat &&
      (fix all2 (l : list ChainSpec) (r : list ChainSpec) : bool :=
         match l, r with
         | [], [] => true
         | x :: l', y :: r' => structuralEquals x y && all2 l' r'
         | _, _ => false
         end) xs ys
  | case_spec i k cs d, case_spec j k' cs' d' =>
      (i =? j)%nat && (k =? k')
      && (List.length cs =? List.length cs')%nat
      && (fix all (l : list (string * ChainSpec)) : bool :=
            match l with
            | [] => true
            | kc :: l' =>
                match assoc (fst kc) cs' with
                | Some c' => structuralEquals (snd kc) c'
                | None => false
                end && all l'
            end) cs
      && match d, d' with
         | Some x, Some y => structuralEquals x y
         | None, None => true
         | _, _ => false
         end
  | reformat_spec x, reformat_spec y =>
      (reformat_chain_id x =? reformat_chain_id y)%nat
      && list_eqb String.eqb (reformat_input_keys x) (reformat_input_keys y)
      && map_eqb String.eqb (formatters x) (formatters y)
  | api_spec x, api_spec y =>
      (api_chain_id x =? api_chain_id y)%nat
      && list_eqb String.eqb (api_input_keys x) (api_input_keys y)
      && (url x =? url y) && (method x =? method y)
      && map_eqb String.eqb (headers x) (headers y)
      && option_eqb String.eqb (body x) (body y)
      && (api_output_key x =? api_output_key y)
  | _, _ => false
  end.

(** Modelled from the spec: [deepEquals(a, b)] as the session calls it, on
    two trees either of which may be [null]; two absent trees are equal. *)
Definition deepEquals (a b : option ChainSpec) : bool :=
  option_eqb structuralEquals a b.

End Sets.

(* ================================================================= *)
(** ** ChainSpecContext.tsx: the editor session *)

(** The state of [ChainSpecProvider]: [chainSpec] is the committed tree the
    designer renders, [dirtyChainSpec] the working tree. *)
Record Session : Type := mkSession {
  chainSpec : option ChainSpec;
  chainName : string;
  dirtyChainSpec : option ChainSpec;
  nextChainId : nat;
  revision : option string;
  isInteracting : bool
}.

(** [useState] initial values. *)
Definition initialSession : Session :=
  mkSession None EmptyString None 0 None false.

Definition setChainSpec (s : Session) (spec : option ChainSpec) : Session :=
  mkSession spec (chainName s) (dirtyChainSpec s) (nextChainId s)
    (revision s) (isInteracting s).

Definition setDirtyChainSpec (s : Session) (spec : option ChainSpec) : Session :=
  mkSession (chainSpec s) (chainName s) spec (nextChainId s)
    (revision s) (isInteracting s).

Definition setNextChainId (s : Session) (n : nat) : Session :=
  mkSession (chainSpec s) (chainName s) (dirtyChainSpec s) n
    (revision s) (isInteracting s).

(** [setChains]: both trees are set to the spec. *)
Definition setChains (s : Session) (spec : ChainSpec) : Session :=
  setDirtyChainSpec (setChainSpec s (Some spec)) (Some spec).

Section Session.
(** The three imports of the session that are not among the sources. *)
Variable insertGeneratedChainSpec :
  option ChainSpec -> nat -> string -> nat -> nat -> Result ChainSpec.
Variable updateChainSpec :
  option ChainSpec -> ChainSpec -> SpecControl.UpdateResult.
Variable deepEquals : option ChainSpec -> option ChainSpec -> bool.

Definition insertChainSpec (s : Session) (type : string)
    (chainId index : nat) : Result Session :=
  match insertGeneratedChainSpec (dirtyChainSpec s) (nextChainId s)
          type chainId index with
  | Throw e => Throw e
  | Ok newSpec => Ok (setNextChainId (setChains s newSpec) (nextChainId s + 1))
  end.

Definition latestChainSpec (s : Session) : option ChainSpec :=
  dirtyChainSpec s.

Definition updateDirtyChainSpec (s : Session) (spec : ChainSpec)
  : Result Session :=
  let result := updateChainSpec (dirtyChainSpec s) spec in
  if negb (SpecControl.found result) then
    Throw ("Could not find chain spec with id " ++ Str.ofNat (chain_id spec)
           ++ " to update")
  else Ok (setDirtyChainSpec s (SpecControl.updated result)).

(** [!!chainSpec && deepEquals(chainSpec, dirtyChainSpec)] *)
Definition readyToInteract (s : Session) : bool :=
  match chainSpec s with
  | None => false
  | Some _ => deepEquals (chainSpec s) (dirtyChainSpec s)
  end.
End Session.

(* ================================================================= *)
(** ** Designer.tsx: the API designer *)

(** The [useState] cells of [APISpecDesigner]; [st_headers] is the text of
    the headers field as the user typed it. *)
Record APIDesignerState : Type := mkAPIDesignerState {
  st_url : string;
  st_method : string;
  st_headers : string;
  st_headersError : bool;
  st_body : option string;
  st_outputKey : string
}.

Definition setHeadersError (st : APIDesignerState) (e : bool) : APIDesignerState :=
  mkAPIDesignerState (st_url st) (st_method st) (st_headers st) e
    (st_body st) (st_outputKey st).

Section APISpecDesigner.
(** [JSON.parse]: the parsed headers, or the [SyntaxError] it throws. *)
Variable JSON_parse : string -> Result Headers.

(** The props: the spec the designer was rendered with and the
    [updateChainSpec] of the context, applied to the session. *)
Variable spec : APISpec.
Variable T : Type.
Variable updateChainSpec : ChainSpec -> Result T.

(** [try { setHeadersError(false); return JSON.parse(str); }
     catch (e) { setHeadersError(true); } return spec.headers;]
    The designer state after the calls of [setHeadersError] and the
    returned value. *)
Definition tryParseHeaders (st : APIDesignerState) (str : string)
  : APIDesignerState * Headers :=
  let st := setHeadersError st false in
  match JSON_parse str with
  | Ok h => (st, h)
  | Throw _ => (setHeadersError st true, headers spec)
  end.

(** The variables of [url], [method], [headers] and, if present and not
    empty, [body]. *)
Definition apiVars (st : APIDesignerState) : StrSet :=
  let vars := [] in
  let vars := fst (replaceAll apiVarRegex apiAdd vars (st_url st)) in
  let vars := fst (replaceAll apiVarRegex apiAdd vars (st_method st)) in
  let vars := fst (replaceAll apiVarRegex apiAdd vars (st_headers st)) in
  match st_body st with
  | Some b =>
      if Str.isEmpty b then vars
      else fst (replaceAll apiVarRegex apiAdd vars b)
  | None => vars
  end.

(** The spec the update effect hands to [updateChainSpec], with the
    designer state [tryParseHeaders] leaves. *)
Definition apiEmitted (st : APIDesignerState) : APIDesignerState * APISpec :=
  let vars := apiVars st in
  let (st', h) := tryParseHeaders st (st_headers st) in
  (st', {| api_chain_id := api_chain_id spec;
           api_input_keys := Array_from vars;
           url := st_url st;
           method := st_method st;
           headers := h;
           body := st_body st;
           api_output_key := st_outputKey st |}).

(** The effect on [url, method, headers, body, outputKey]. *)
Definition apiUpdateEffect (st : APIDesignerState)
  : Result (T * APIDesignerState) :=
  let (st', emitted) := apiEmitted st in
  match updateChainSpec (api_spec emitted) with
  | Ok t => Ok (t, st')
  | Throw e => Throw e
  end.
End APISpecDesigner.
Arguments apiUpdateEffect JSON_parse spec {T} updateChainSpec st.

(** The state of the provider after a callback: a callback that throws has
    called no setter. *)
Definition stateAfter (s : Session) (r : Result Session) : Session :=
  match r with
  | Ok s' => s'
  | Throw _ => s
  end.

(** A stand-in for [JSON.parse] in the examples.  It agrees with [JSON.parse]
    on the text of the empty object and on texts that start with no JSON
    value, the only ones the examples use; no theorem depends on it. *)
Definition parseEmptyObject (str : string) : Result Headers :=
  if str =? "{}" then Ok []
  else Throw "SyntaxError".

(* ================================================================= *)
(** ** JavaScript objects with string keys *)

(** An object as the list of its own properties in the order they were
    created; a property is read with [Sets.assoc].  [o[k] = v]: an existing
    property keeps its place and gets the value, a new one is created last. *)
Fixpoint obj_set {A : Type} (k : string) (v : A) (o : list (string * A))
  : list (string * A) :=
  match o with
  | [] => [(k, v)]
  | (k', v') :: o' =>
      if k =? k' then (k, v) :: o' else (k', v') :: obj_set k v o'
  end.

(** [delete o[k]] *)
Definition obj_delete {A : Type} (k : string) (o : list (string * A))
  : list (string * A) :=
  filter (fun kv => negb (k =? fst kv)) o.

(** [Object.fromEntries(entries)]: the entries are set in order.  The list
    keeps the order of creation; the order in which the language enumerates
    keys that are array indices is not modelled, and the properties below
    read objects by key only. *)
Definition Object_fromEntries {A : Type} (entries : list (string * A))
  : list (string * A) :=
  fold_left (fun o kv => obj_set (fst kv) (snd kv) o) entries [].

(** The value of the last entry with the key [k] in an array of entries. *)
Fixpoint lastAssoc {A : Type} (k : string) (entries : list (string * A))
  : option A :=
  match entries with
  | [] => None
  | (k', v) :: entries' =>
      match lastAssoc k entries' with
      | Some r => Some r
      | None => if k =? k' then Some v else None
      end
  end.

(** [array.map(callback)] with a callback that may throw: the first error
    ends the loop. *)
Fixpoint Array_map {A B : Type} (callback : A -> Result B) (l : list A)
  : Result (list B) :=
  match l with
  | [] => Ok []
  | x :: l' =>
      match callback x with
      | Throw e => Throw e
      | Ok y =>
          match Array_map callback l' with
          | Throw e => Throw e
          | Ok ys => Ok (y :: ys)
          end
      end
  end.

(** [[...a.slice(0, index), x, ...a.slice(index + 1)]] *)
Definition replaceAt {A : Type} (index : nat) (x : A) (a : list A) : list A :=
  (firstn index a ++ x :: skipn (index + 1) a)%list.

(* ================================================================= *)
(** ** Designer.tsx: the Case designer *)

(** The [useState] cells of [CaseSpecDesigner]. *)
Record CaseDesignerState : Type := mkCaseDesignerState {
  st_categorizationKey : string;
  st_cases : list (string * ChainSpec)
}.

(** [updateCaseKey]: the new [cases]; reading [cases[index][1]] past the end
    of the array throws a [TypeError]. *)
Definition updateCaseKey (cases : list (string * ChainSpec)) (index : nat)
    (key : string) : Result (list (string * ChainSpec)) :=
  match nth_error cases index with
  | Some item => Ok (replaceAt index (key, snd item) cases)
  | None => Throw "TypeError"
  end.

Section CaseSpecDesigner.
(** [findByChainId] of the context and the props of the designer. *)
Variable findByChainId : nat -> option ChainSpec.
Variable spec : ChainSpec.
Variable T : Type.
Variable updateChainSpec : ChainSpec -> Result T.

Definition mustFind (chainId : nat) : Result ChainSpec :=
  match findByChainId chainId with
  | Some chain => Ok chain
  | None => Throw ("Chain " ++ Str.ofNat chainId ++ " not found.")
  end.

(** [computeCases]: the default case and the cases without it. *)
Definition computeCases (cases : list (string * ChainSpec))
  : Result (option ChainSpec * list (string * ChainSpec)) :=
  match Array_map (fun item => match mustFind (chain_id (snd item)) with
                               | Ok chain => Ok (fst item, chain)
                               | Throw e => Throw e
                               end) cases with
  | Throw e => Throw e
  | Ok entries =>
      let newCases := Object_fromEntries entries in
      let defaultCase := Sets.assoc "_default" newCases in
      Ok (defaultCase, obj_delete "_default" newCases)
  end.

(** The effect on [categorizationKey, cases]: what [updateChainSpec]
    returned, or [None] when the effect returned before calling it. *)
Definition caseUpdateEffect (st : CaseDesignerState) : Result (option T) :=
  match st_cases st with
  | [] => Ok None
  | _ :: _ =>
      match computeCases (st_cases st) with
      | Throw e => Throw e
      | Ok (defaultCase, updatedCases) =>
          match updateChainSpec
                  (case_spec (chain_id spec) (st_categorizationKey st)
                     updatedCases defaultCase) with
          | Ok t => Ok (Some t)
          | Throw e => Throw e
          end
      end
  end.
End CaseSpecDesigner.
Arguments caseUpdateEffect findByChainId spec {T} updateChainSpec st.

(* ================================================================= *)
(** ** Designer.tsx: the Reformat designer *)

(** [updateFormatter]: the new [formatters]. *)
Definition updateFormatter (formatters : list (string * string)) (index : nat)
    (key value : string) : list (string * string) :=
  replaceAt index (key, value) formatters.

(** [addFormatter]: the new [formatters]. *)
Definition addFormatter (formatters : list (string * string))
  : list (string * string) :=
  let key := "output_key_" ++ Str.ofNat (List.length formatters) in
  (formatters ++ [(key, EmptyString)])%list.

(** The spec the effect on [formatters, variables] hands to
    [updateChainSpec]. *)
Definition reformatEmitted (spec : ReformatSpec)
    (formatters : list (string * string)) (variables : list string)
  : ReformatSpec :=
  {| reformat_chain_id := reformat_chain_id spec;
     reformat_input_keys := variables;
     formatters := Object_fromEntries formatters |}.

(* ================================================================= *)
(** ** Designer.tsx: texts of plain references *)

(** [[^{]] *)
Definition notOpen (c : ascii) : bool := negb (Ascii.eqb c "{").

(** The text [t1{w1}t2{w2}...last] of the pieces [(t1, w1), (t2, w2), ...]. *)
Fixpoint plainTemplate (pieces : list (string * string)) (last : string)
  : string :=
  match pieces with
  | [] => last
  | (text, w) :: pieces' => text ++ "{" ++ w ++ "}" ++ plainTemplate pieces' last
  end.

(** The outcome of a match of a pattern with an opening brace and [x]
    appended to what remains of the text. *)
Definition extendWith {G : Type} (x : string) (r : option (G * string))
  : option (G * string) :=
  match r with
  | Some (g, rest) => Some (g, rest ++ String "{" x)
  | None => None
  end.

(* ================================================================= *)
(** ** ChainSpecContext.tsx: calls of the context *)

Definition setChainName (s : Session) (name : string) : Session :=
  mkSession (chainSpec s) name (dirtyChainSpec s) (nextChainId s)
    (revision s) (isInteracting s).

Definition setRevision (s : Session) (r : string) : Session :=
  mkSession (chainSpec s) (chainName s) (dirtyChainSpec s) (nextChainId s)
    (Some r) (isInteracting s).

Definition setIsInteracting (s : Session) (b : bool) : Session :=
  mkSession (chainSpec s) (chainName s) (dirtyChainSpec s) (nextChainId s)
    (revision s) b.

(** A call of one of the functions the provider hands to its consumers. *)
Inductive SessionCall : Type :=
| CallSetChainSpec (spec : ChainSpec)
| CallSetChainName (name : string)
| CallSetRevision (r : string)
| CallInsertChainSpec (type : string) (chainId index : nat)
| CallUpdateChainSpec (spec : ChainSpec)
| CallSetIsInteracting (b : bool).

(** The calls other than [setChainSpec] and [insertChainSpec]. *)
Definition isEdit (c : SessionCall) : bool :=
  match c with
  | CallSetChainSpec _ | CallInsertChainSpec _ _ _ => false
  | _ => true
  end.

Section SessionCalls.
Variable insertGeneratedChainSpec :
  option ChainSpec -> nat -> string -> nat -> nat -> Result ChainSpec.
Variable updateChainSpec :
  option ChainSpec -> ChainSpec -> SpecControl.UpdateResult.

Definition call (s : Session) (c : SessionCall) : Result Session :=
  match c with
  | CallSetChainSpec spec => Ok (setChains s spec)
  | CallSetChainName name => Ok (setChainName s name)
  | CallSetRevision r => Ok (setRevision s r)
  | CallInsertChainSpec type chainId index =>
      insertChainSpec insertGeneratedChainSpec s type chainId index
  | CallUpdateChainSpec spec => updateDirtyChainSpec updateChainSpec s spec
  | CallSetIsInteracting b => Ok (setIsInteracting s b)
  end.

(** The state after a sequence of calls, each made with the callbacks of the
    render that follows the call before it. *)
Fixpoint runCalls (s : Session) (cs : list SessionCall) : Session :=
  match cs with
  | [] => s
  | c :: cs' => runCalls (stateAfter s (call s c)) cs'
  end.

(** The ids handed to [insertGeneratedChainSpec] by the calls of
    [insertChainSpec] that returned a tree, in order. *)
Fixpoint allocated (s : Session) (cs : list SessionCall) : list nat :=
  match cs with
  | [] => []
  | c :: cs' =>
      match c, call s c with
      | CallInsertChainSpec _ _ _, Ok s' => nextChainId s :: allocated s' cs'
      | _, r => allocated (stateAfter s r) cs'
      end
  end.
End SessionCalls.

(* ================================================================= *)
(** ** Designer.tsx: the API designer at the root *)

(** [onChange={e => setHeaders(e.target.value)}] of the headers field. *)
Definition setHeaders (st : APIDesignerState) (text : string) : APIDesignerState :=
  mkAPIDesignerState (st_url st) (st_method st) text (st_headersError st)
    (st_body st) (st_outputKey st).

(** Typing in the headers field of the API designer that [Designer] renders
    for the root: [Designer] hands [chainSpec], the committed tree, to
    [renderChainSpec] (370-381), so the [spec] of the designer is the
    committed node; the text is set and the update effect runs with the
    [updateChainSpec] of the context.  [None] when the root is no API spec. *)
Definition typeHeadersAtRoot (JSON_parse : string -> Result Headers)
    (update : option ChainSpec -> ChainSpec -> SpecControl.UpdateResult)
    (sess : Session) (st : APIDesignerState) (text : string)
  : option (Result (Session * APIDesignerState)) :=
  match chainSpec sess with
  | Some (api_spec spec) =>
      Some (apiUpdateEffect JSON_parse spec (updateDirtyChainSpec update sess)
              (setHeaders st text))
  | _ => None
  end.

(* ================================================================= *)
(** * Properties *)

(** ** Strings *)

Module StrFacts.
Import Str.

Lemma dropWhile_length (p : ascii -> bool) (s : string) :
  String.length (dropWhile p s) <= String.length s.
Proof.
  induction s as [|c s IH]; simpl; [lia|].
  destruct (p c); simpl; lia.
Qed.

Lemma stripPrefix_length (pre s r : string) :
  stripPrefix pre s = Some r -> String.length r <= String.length s.
Proof.
  revert s; induction pre as [|a pre IH]; intros s H; simpl in H.
  - injection H as <-; lia.
  - destruct s as [|b s]; [discriminate|].
    destruct (Ascii.eqb a b); [|discriminate].
    apply IH in H; simpl; lia.
Qed.

Lemma stripPrefix_app (pre s : string) : stripPrefix pre (pre ++ s) = Some s.
Proof.
  induction pre as [|a pre IH]; simpl; [reflexivity|].
  now rewrite Ascii.eqb_refl.
Qed.

(** A run of [p] characters followed by a text that does not start with one is
    split at the seam. *)
Lemma takeWhile_app (p : ascii -> bool) (a b : string) :
  forallb p a = true -> headIs p b = false -> takeWhile p (a ++ b) = a.
Proof.
  intros Ha Hb; induction a as [|c a IH]; simpl in *.
  - destruct b as [|c b]; simpl in *; [reflexivity|now rewrite Hb].
  - apply andb_true_iff in Ha as [Hc Ha]; rewrite Hc; f_equal; auto.
Qed.

Lemma dropWhile_app (p : ascii -> bool) (a b : string) :
  forallb p a = true -> headIs p b = false -> dropWhile p (a ++ b) = b.
Proof.
  intros Ha Hb; induction a as [|c a IH]; simpl in *.
  - destruct b as [|c b]; simpl in *; [reflexivity|now rewrite Hb].
  - apply andb_true_iff in Ha as [Hc Ha]; rewrite Hc; auto.
Qed.

Lemma takeWhile_forallb (p : ascii -> bool) (s : string) :
  forallb p (takeWhile p s) = true.
Proof.
  induction s as [|c s IH]; simpl; [reflexivity|].
  destruct (p c) eqn:E; simpl; [now rewrite E|reflexivity].
Qed.

Lemma dropWhile_head (p : ascii -> bool) (s : string) :
  headIs p (dropWhile p s) = false.
Proof.
  induction s as [|c s IH]; simpl; [reflexivity|].
  destruct (p c) eqn:E; simpl; [exact IH|exact E].
Qed.

Lemma takeWhile_dropWhile (p : ascii -> bool) (s : string) :
  takeWhile p s ++ dropWhile p s = s.
Proof.
  induction s as [|c s IH]; simpl; [reflexivity|].
  destruct (p c); simpl; [now rewrite IH|reflexivity].
Qed.

Lemma forallb_weaken (p q : ascii -> bool) (s : string) :
  (forall c, p c = true -> q c = true) ->
  forallb p s = true -> forallb q s = true.
Proof.
  intros Hpq; induction s as [|c s IH]; simpl; [reflexivity|].
  intros H; apply andb_true_iff in H as [Hc Hs].
  now rewrite (Hpq _ Hc), IH.
Qed.

(** A run stops at a character that fails [p], whatever follows it. *)
Lemma takeWhile_app_stop (p : ascii -> bool) (a : string) (c : ascii) (x : string) :
  p c = false -> takeWhile p (a ++ String c x) = takeWhile p a.
Proof.
  intros Hc; induction a as [|b a IH]; simpl; [now rewrite Hc|].
  destruct (p b); [now rewrite IH|reflexivity].
Qed.

Lemma dropWhile_app_stop (p : ascii -> bool) (a : string) (c : ascii) (x : string) :
  p c = false -> dropWhile p (a ++ String c x) = dropWhile p a ++ String c x.
Proof.
  intros Hc; induction a as [|b a IH]; simpl; [now rewrite Hc|].
  destruct (p b); [exact IH|reflexivity].
Qed.

Lemma stripPrefix_app_some (pre a r y : string) :
  stripPrefix pre a = Some r -> stripPrefix pre (a ++ y) = Some (r ++ y).
Proof.
  revert a; induction pre as [|b pre IH]; intros a H; simpl in *.
  - now injection H as <-.
  - destruct a as [|c a]; [discriminate|]. simpl.
    destruct (Ascii.eqb b c); [now apply IH|discriminate].
Qed.

(** A prefix that does not contain [c] is not found by appending a text that
    starts with [c]. *)
Lemma stripPrefix_app_none (pre a : string) (c : ascii) (x : string) :
  forallb (fun b => negb (Ascii.eqb b c)) pre = true ->
  stripPrefix pre a = None -> stripPrefix pre (a ++ String c x) = None.
Proof.
  revert a; induction pre as [|b pre IH]; intros a Hpre H; simpl in *.
  - discriminate.
  - apply andb_true_iff in Hpre as [Hb Hpre].
    destruct a as [|d a]; simpl.
    + destruct (Ascii.eqb b c); [discriminate|reflexivity].
    + destruct (Ascii.eqb b d); [now apply IH|reflexivity].
Qed.

Lemma isEmpty_false (s : string) : s <> EmptyString -> isEmpty s = false.
Proof. destruct s; [congruence|reflexivity]. Qed.

Lemma append_assoc (a b c : string) : (a ++ b) ++ c = a ++ (b ++ c).
Proof. induction a as [|x a IH]; simpl; [reflexivity|now rewrite IH]. Qed.

Lemma append_nil_r (a : string) : a ++ EmptyString = a.
Proof. induction a as [|x a IH]; simpl; [reflexivity|now rewrite IH]. Qed.

End StrFacts.

(** ** The replace loop *)

Section ReplaceFacts.
Context {G S : Type}.
Variable matchAt : string -> option (G * string).
Variable callback : S -> G -> S * string.

(** Every match consumes at least one character. *)
Hypothesis consumes : forall s g rest,
  matchAt s = Some (g, rest) -> String.length rest < String.length s.

Lemma replaceFuel_irrelevant (fuel1 fuel2 : nat) (st : S) (s : string) :
  String.length s <= fuel1 -> String.length s <= fuel2 ->
  replaceFuel matchAt callback fuel1 st s
  = replaceFuel matchAt callback fuel2 st s.
Proof.
  revert fuel2 st s; induction fuel1 as [|fuel1 IH]; intros fuel2 st s H1 H2.
  - destruct s; simpl in *; [now destruct fuel2|lia].
  - destruct s as [|c s]; [now destruct fuel2|].
    destruct fuel2 as [|fuel2]; [simpl in H2; lia|].
    simpl in H1, H2. simpl.
    destruct (matchAt (String c s)) as [[g rest]|] eqn:E.
    + apply consumes in E; simpl in E.
      destruct (callback st g) as [st1 r].
      rewrite (IH fuel2 st1 rest) by lia. reflexivity.
    + rewrite (IH fuel2 st s) by lia. reflexivity.
Qed.

(** The fuel of [replaceAll] is never the reason the loop stops: more fuel
    gives the same result. *)
Lemma replaceFuel_enough (fuel : nat) (st : S) (s : string) :
  String.length s <= fuel ->
  replaceFuel matchAt callback fuel st s = replaceAll matchAt callback st s.
Proof. intros H; apply replaceFuel_irrelevant; [exact H|lia]. Qed.

Lemma replaceAll_nil (st : S) :
  replaceAll matchAt callback st EmptyString = (st, EmptyString).
Proof. reflexivity. Qed.

Lemma replaceAll_match (st : S) (s : string) (g : G) (rest : string) :
  matchAt s = Some (g, rest) ->
  replaceAll matchAt callback st s
  = (let (st1, r) := callback st g in
     let (st2, out) := replaceAll matchAt callback st1 rest in
     (st2, r ++ out)).
Proof.
  intros E. pose proof (consumes _ _ _ E) as L.
  unfold replaceAll at 1.
  destruct s as [|c s]; [simpl in L; lia|].
  simpl String.length. simpl replaceFuel. rewrite E.
  destruct (callback st g) as [st1 r].
  rewrite replaceFuel_enough by (simpl in L; lia). reflexivity.
Qed.

(** A property of the state that every call of the callback keeps holds of
    the final state. *)
Lemma replaceFuel_invariant (P : S -> Prop) :
  (forall st g, P st -> P (fst (callback st g))) ->
  forall fuel st s, P st -> P (fst (replaceFuel matchAt callback fuel st s)).
Proof.
  intros Hcb. induction fuel as [|fuel IH]; intros st s Hst.
  - now destruct s.
  - destruct s as [|c s]; [exact Hst|]. simpl.
    destruct (matchAt (String c s)) as [[g rest]|].
    + specialize (Hcb st g Hst). destruct (callback st g) as [st1 r].
      specialize (IH st1 rest Hcb).
      now destruct (replaceFuel matchAt callback fuel st1 rest).
    + specialize (IH st s Hst).
      now destruct (replaceFuel matchAt callback fuel st s).
Qed.

Lemma replaceAll_skip (st : S) (c : ascii) (s : string) :
  matchAt (String c s) = None ->
  replaceAll matchAt callback st (String c s)
  = (let (st2, out) := replaceAll matchAt callback st s in
     (st2, String c out)).
Proof.
  intros E. unfold replaceAll at 1.
  simpl String.length. simpl replaceFuel. rewrite E. reflexivity.
Qed.
End ReplaceFacts.

(** ** The patterns *)

Module RegexFacts.
Import Str StrFacts.

Lemma matchParam_length (s p r : string) :
  matchParam s = Some (p, r) -> String.length r < String.length s.
Proof.
  unfold matchParam. destruct s as [|c s]; simpl; [discriminate|].
  destruct (notColonBrace c); simpl; [|discriminate].
  intros H; injection H as _ <-.
  pose proof (dropWhile_length notColonBrace s); lia.
Qed.

Lemma matchParam_app (x t : string) :
  x <> EmptyString -> forallb notColonBrace x = true ->
  headIs notColonBrace t = false ->
  matchParam (x ++ t) = Some (x, t).
Proof.
  intros Hne Hx Ht. unfold matchParam.
  rewrite takeWhile_app, dropWhile_app by assumption.
  now rewrite isEmpty_false.
Qed.

Lemma matchDirectiveArgs_length (d s : string) (m : ExtMatch) (rest : string) :
  matchDirectiveArgs d s = Some (m, rest) ->
  String.length rest < String.length s.
Proof.
  unfold matchDirectiveArgs.
  destruct (matchParam s) as [[p1 r]|] eqn:E1; [|discriminate].
  apply matchParam_length in E1.
  destruct r as [|c r1]; [discriminate|]. simpl in E1.
  destruct (Ascii.eqb c "}").
  - intros H; injection H as _ <-; lia.
  - destruct (Ascii.eqb c ":"); [|discriminate].
    destruct (matchParam r1) as [[p2 [|c2 r2]]|] eqn:E2; try discriminate.
    apply matchParam_length in E2. simpl in E2.
    destruct (Ascii.eqb c2 "}"); [|discriminate].
    intros H; injection H as _ <-; lia.
Qed.

Lemma matchDirective_length (ds : list string) (s : string) (m : ExtMatch)
    (rest : string) :
  matchDirective ds s = Some (m, rest) -> String.length rest < String.length s.
Proof.
  induction ds as [|d ds IH]; simpl; [discriminate|].
  destruct (stripPrefix (d ++ ":") s) as [args|] eqn:E; [|exact IH].
  destruct (matchDirectiveArgs d args) as [[m' rest']|] eqn:E2; [|exact IH].
  intros H; injection H as <- <-.
  apply stripPrefix_length in E. apply matchDirectiveArgs_length in E2. lia.
Qed.

Lemma matchStd_length (s : string) (m : ExtMatch) (rest : string) :
  matchStd s = Some (m, rest) -> String.length rest < String.length s.
Proof.
  unfold matchStd. pose proof (dropWhile_length notBrace s) as L.
  destruct (dropWhile notBrace s) as [|c r]; [discriminate|].
  destruct (Ascii.eqb c "}"); [|discriminate].
  intros H; injection H as _ <-. simpl in L; lia.
Qed.

Lemma extendedFormatterRegex_consumes (s : string) (m : ExtMatch) (rest : string) :
  extendedFormatterRegex s = Some (m, rest) ->
  String.length rest < String.length s.
Proof.
  unfold extendedFormatterRegex. destruct s as [|c s]; [discriminate|].
  destruct (Ascii.eqb c "{"); [|discriminate].
  destruct (matchDirective directives s) as [[m' r']|] eqn:E.
  - intros H; injection H as <- <-. apply matchDirective_length in E. simpl; lia.
  - intros H. apply matchStd_length in H. simpl; lia.
Qed.

Lemma identifierRegex_consumes (s g rest : string) :
  identifierRegex s = Some (g, rest) -> String.length rest < String.length s.
Proof.
  unfold identifierRegex. destruct s as [|c s]; [discriminate|].
  destruct (isWordStart c); [|discriminate].
  intros H; injection H as _ <-.
  pose proof (dropWhile_length isWordChar s). simpl; lia.
Qed.

Lemma llmPromptRegex_consumes (s : string) (g : string * string) (rest : string) :
  llmPromptRegex s = Some (g, rest) -> String.length rest < String.length s.
Proof.
  unfold llmPromptRegex. destruct s as [|c s]; [discriminate|].
  destruct (Ascii.eqb c "{"); [|discriminate].
  pose proof (dropWhile_length lazyDot s) as L.
  destruct (dropWhile lazyDot s) as [|c2 r]; [discriminate|].
  destruct (Ascii.eqb c2 "}"); [|discriminate].
  intros H; injection H as _ <-. simpl in *; lia.
Qed.

Lemma apiVarRegex_consumes (s g rest : string) :
  apiVarRegex s = Some (g, rest) -> String.length rest < String.length s.
Proof.
  unfold apiVarRegex. destruct s as [|c s]; [discriminate|].
  destruct (Ascii.eqb c "{"); [|discriminate].
  pose proof (dropWhile_length isWordChar s) as L.
  destruct (dropWhile isWordChar s) as [|c2 r]; [discriminate|].
  destruct (_ && _); [|discriminate].
  intros H; injection H as _ <-. simpl in *; lia.
Qed.

(** A word followed by a colon is the prefix of a text that starts with a word
    and a non-word character only if the words are the same and that
    character is the colon. *)
Lemma stripPrefix_word (p : ascii -> bool) (d w t out : string) :
  p ":"%char = false ->
  forallb p d = true -> forallb p w = true -> headIs p t = false ->
  stripPrefix (d ++ ":") (w ++ t) = Some out ->
  d = w /\ t = String ":" out.
Proof.
  intros Hp. revert w. induction d as [|a d IH]; intros w Hd Hw Ht H.
  - destruct w as [|c w]; cbn [append stripPrefix forallb] in *.
    + destruct t as [|b t]; [discriminate|]. cbn [stripPrefix] in H.
      destruct (Ascii.eqb_spec ":" b) as [<-|]; [|discriminate].
      injection H as <-. auto.
    + apply andb_true_iff in Hw as [Hc _].
      destruct (Ascii.eqb_spec ":" c) as [<-|]; [congruence|discriminate].
  - cbn [forallb] in Hd. apply andb_true_iff in Hd as [Ha Hd].
    destruct w as [|c w]; cbn [append stripPrefix forallb] in *.
    + destruct t as [|b t]; [discriminate|]. cbn [headIs stripPrefix] in *.
      destruct (Ascii.eqb_spec a b) as [<-|]; [congruence|discriminate].
    + apply andb_true_iff in Hw as [Hc Hw].
      destruct (Ascii.eqb_spec a c) as [<-|]; [|discriminate].
      destruct (IH w Hd Hw Ht H) as [-> ->]. auto.
Qed.

Lemma directives_words (d : string) :
  In d directives -> forallb isWordChar d = true.
Proof.
  unfold directives; simpl; intros H.
  repeat (destruct H as [<-|H]; [reflexivity|]). contradiction.
Qed.

Lemma isWordChar_notColonBrace (c : ascii) :
  isWordChar c = true -> notColonBrace c = true.
Proof.
  unfold isWordChar, notColonBrace, isBrace, inRange. intros H.
  destruct (Ascii.eqb_spec c ":") as [->|]; [discriminate|].
  destruct (Ascii.eqb_spec c "{") as [->|]; [discriminate|].
  destruct (Ascii.eqb_spec c "}") as [->|]; [discriminate|]. reflexivity.
Qed.

Lemma notColonBrace_notBrace (c : ascii) :
  notColonBrace c = true -> notBrace c = true.
Proof.
  unfold notColonBrace, notBrace. destruct (isBrace c); [|reflexivity].
  now rewrite orb_true_r.
Qed.

(** No directive word matches when no directive word and colon is a prefix. *)
Lemma matchDirective_none (ds : list string) (s : string) :
  (forall d, In d ds -> stripPrefix (d ++ ":") s = None) ->
  matchDirective ds s = None.
Proof.
  induction ds as [|d ds IH]; intros H; simpl; [reflexivity|].
  rewrite (H d) by (left; reflexivity).
  apply IH. intros d' Hd'. apply H. now right.
Qed.

(** The directive words before the one that matches are skipped. *)
Lemma matchDirective_hit (ds : list string) (d s args : string)
    (r : ExtMatch * string) :
  In d ds ->
  (forall d', In d' ds -> d' <> d -> stripPrefix (d' ++ ":") s = None) ->
  stripPrefix (d ++ ":") s = Some args ->
  matchDirectiveArgs d args = Some r ->
  matchDirective ds s = Some r.
Proof.
  intros Hin Hother Hd Hargs.
  induction ds as [|d0 ds IH]; [contradiction|]. simpl.
  destruct (String.eqb_spec d0 d) as [->|Hne].
  - now rewrite Hd, Hargs.
  - rewrite (Hother d0) by (auto; left; reflexivity).
    apply IH.
    + destruct Hin as [->|Hin]; [congruence|exact Hin].
    + intros d' Hd' Hne'. apply Hother; [now right|exact Hne'].
Qed.

(** What a match of the directive alternative captures. *)
Lemma matchDirective_groups (ds : list string) (s : string) (m : ExtMatch)
    (rest : string) :
  matchDirective ds s = Some (m, rest) ->
  exists d, In d ds /\ exprType m = Some d /\ stdExpr m = None
            /\ exists p1, exprParam1 m = Some p1.
Proof.
  induction ds as [|d ds IH]; simpl; [discriminate|].
  assert (Hrec : matchDirective ds s = Some (m, rest) ->
                 exists d0, (d = d0 \/ In d0 ds) /\ exprType m = Some d0
                            /\ stdExpr m = None
                            /\ exists p1, exprParam1 m = Some p1).
  { intros H. destruct (IH H) as (d0 & Hin & Hrest). exists d0. auto. }
  destruct (stripPrefix (d ++ ":") s) as [args|]; [|exact Hrec].
  destruct (matchDirectiveArgs d args) as [[m' rest']|] eqn:E; [|exact Hrec].
  intros H; injection H as <- <-. clear Hrec.
  unfold matchDirectiveArgs in E.
  destruct (matchParam args) as [[p1 r]|]; [|discriminate].
  destruct r as [|c r1]; [discriminate|].
  destruct (Ascii.eqb c "}").
  - injection E as <- _. exists d; simpl; repeat split; eauto.
  - destruct (Ascii.eqb c ":"); [|discriminate].
    destruct (matchParam r1) as [[p2 [|c2 r2]]|]; try discriminate.
    destruct (Ascii.eqb c2 "}"); [|discriminate].
    injection E as <- _. exists d; simpl; repeat split; eauto.
Qed.

(** *** A match never runs over an opening brace

    The patterns of the extended formatter are tried on a text followed by
    an opening brace and more: the outcome is that on the text alone, with
    the rest appended to what remains. *)

Lemma matchParam_brace (s x : string) :
  matchParam (s ++ String "{" x)
  = match matchParam s with
    | Some (p, r) => Some (p, r ++ String "{" x)
    | None => None
    end.
Proof.
  unfold matchParam.
  rewrite takeWhile_app_stop, dropWhile_app_stop by reflexivity.
  now destruct (isEmpty _).
Qed.

Lemma matchDirectiveArgs_brace (d s x : string) :
  matchDirectiveArgs d (s ++ String "{" x) = extend x (matchDirectiveArgs d s).
Proof.
  unfold matchDirectiveArgs. rewrite matchParam_brace.
  destruct (matchParam s) as [[p1 r]|]; [|reflexivity].
  destruct r as [|c r1]; [reflexivity|]. cbn [append].
  destruct (Ascii.eqb c "}"); [reflexivity|].
  destruct (Ascii.eqb c ":"); [|reflexivity].
  rewrite matchParam_brace.
  destruct (matchParam r1) as [[p2 r2]|]; [|reflexivity].
  destruct r2 as [|c2 rest]; [reflexivity|]. cbn [append].
  now destruct (Ascii.eqb c2 "}").
Qed.

Lemma matchDirective_brace (s x : string) :
  matchDirective directives (s ++ String "{" x)
  = extend x (matchDirective directives s).
Proof.
  assert (H : forall ds, (forall d, In d ds -> In d directives) ->
                         matchDirective ds (s ++ String "{" x)
                         = extend x (matchDirective ds s)).
  { induction ds as [|d ds IH]; intros Hds; [reflexivity|]. simpl.
    assert (IH' := IH (fun d' Hd' => Hds d' (or_intror Hd'))).
    destruct (stripPrefix (d ++ ":") s) as [args|] eqn:E.
    - rewrite (stripPrefix_app_some _ _ _ _ E), matchDirectiveArgs_brace.
      destruct (matchDirectiveArgs d args) as [[m r]|]; [reflexivity|exact IH'].
    - rewrite stripPrefix_app_none; [exact IH'| |exact E].
      assert (Hd : In d directives) by (apply Hds; left; reflexivity).
      unfold directives in Hd; simpl in Hd.
      repeat (destruct Hd as [<-|Hd]; [reflexivity|]). contradiction. }
  apply H. auto.
Qed.

Lemma matchStd_brace (s x : string) :
  matchStd (s ++ String "{" x) = extend x (matchStd s).
Proof.
  unfold matchStd.
  rewrite takeWhile_app_stop, dropWhile_app_stop by reflexivity.
  destruct (dropWhile notBrace s) as [|c rest]; [reflexivity|]. cbn [append].
  now destruct (Ascii.eqb c "}").
Qed.

Lemma extendedFormatterRegex_brace (c : ascii) (s x : string) :
  extendedFormatterRegex (String c s ++ String "{" x)
  = extend x (extendedFormatterRegex (String c s)).
Proof.
  unfold extendedFormatterRegex. cbn [append].
  destruct (Ascii.eqb c "{"); [|reflexivity].
  rewrite matchDirective_brace, matchStd_brace.
  now destruct (matchDirective directives s) as [[m r]|].
Qed.

End RegexFacts.

(** ** The extended formatter, token by token *)

Module TokenFacts.
Import Str StrFacts RegexFacts.

Lemma other_directive_no_prefix (d d' s : string) :
  In d' directives -> d' <> d -> forallb isWordChar d = true ->
  stripPrefix (d' ++ ":") (d ++ String ":" s) = None.
Proof.
  intros Hin Hne Hd.
  destruct (stripPrefix (d' ++ ":") (d ++ String ":" s)) as [out|] eqn:E;
    [|reflexivity].
  apply (stripPrefix_word isWordChar) in E as [E _];
    [congruence|reflexivity|now apply directives_words|exact Hd|reflexivity].
Qed.

Lemma stripPrefix_directive (d s : string) :
  stripPrefix (d ++ ":") (d ++ String ":" s) = Some s.
Proof.
  replace (d ++ String ":" s) with ((d ++ ":") ++ s)
    by (now rewrite append_assoc).
  apply stripPrefix_app.
Qed.

Lemma regex_directive1 (d x rest : string) :
  In d directives -> x <> EmptyString -> forallb notColonBrace x = true ->
  extendedFormatterRegex ("{" ++ d ++ ":" ++ x ++ "}" ++ rest)
  = Some (directive1 d x, rest).
Proof.
  intros Hd Hne Hx. unfold extendedFormatterRegex. cbn [append].
  rewrite Ascii.eqb_refl.
  rewrite (matchDirective_hit directives d _ (x ++ String "}" rest)
             (directive1 d x, rest)); auto.
  - intros d' Hd' Hne'. apply other_directive_no_prefix; auto.
    now apply directives_words.
  - apply stripPrefix_directive.
  - unfold matchDirectiveArgs. rewrite matchParam_app by auto.
    now rewrite Ascii.eqb_refl.
Qed.

Lemma regex_directive2 (d x y rest : string) :
  In d directives -> x <> EmptyString -> forallb notColonBrace x = true ->
  y <> EmptyString -> forallb notColonBrace y = true ->
  extendedFormatterRegex ("{" ++ d ++ ":" ++ x ++ ":" ++ y ++ "}" ++ rest)
  = Some (directive2 d x y, rest).
Proof.
  intros Hd Hne Hx Hney Hy. unfold extendedFormatterRegex. cbn [append].
  rewrite Ascii.eqb_refl.
  rewrite (matchDirective_hit directives d _ (x ++ String ":" (y ++ String "}" rest))
             (directive2 d x y, rest)); auto.
  - intros d' Hd' Hne'. apply other_directive_no_prefix; auto.
    now apply directives_words.
  - apply stripPrefix_directive.
  - unfold matchDirectiveArgs. rewrite matchParam_app by auto.
    cbn. rewrite matchParam_app by auto.
    now rewrite Ascii.eqb_refl.
Qed.

Lemma regex_bracket (v rest : string) :
  forallb notBrace v = true ->
  matchDirective directives (v ++ "}" ++ rest) = None ->
  extendedFormatterRegex ("{" ++ v ++ "}" ++ rest) = Some (bracket v, rest).
Proof.
  intros Hv Hnone. unfold extendedFormatterRegex. cbn [append] in *.
  rewrite Ascii.eqb_refl, Hnone. unfold matchStd.
  rewrite takeWhile_app, dropWhile_app by auto.
  now rewrite Ascii.eqb_refl.
Qed.

Lemma orElse_empty (v : string) : orElse (Some v) EmptyString = v.
Proof. now destruct v. Qed.

Lemma spanExpr_not_error (body : string) : spanExpr body <> errorToken.
Proof. unfold spanExpr, errorToken, span, dq. cbn. discriminate. Qed.

Lemma reduce_bracket (inputs internal : StrSet) (v : string) :
  extendedFormatterReduceFunc (inputs, internal) (bracket v)
  = ((condAdd inputs internal (takeWhile isWordChar v), internal),
     spanExpr (spanVar (takeWhile isWordChar v) ++ dropWhile isWordChar v)).
Proof.
  unfold extendedFormatterReduceFunc, bracket, parseFormatExpression.
  cbn [exprType stdExpr stdExprVar strictEq orb].
  rewrite !orElse_empty. reflexivity.
Qed.

Lemma reduce_binder (inputs internal : StrSet) (m : ExtMatch) (d : string) :
  exprType m = Some d -> In d binders ->
  extendedFormatterReduceFunc (inputs, internal) m
  = (let (variable, expr) := parseFormatExpression (orElse (exprParam1 m) EmptyString) in
     ((condAdd inputs internal variable,
       set_add internal (orElse (exprParam2 m) "data")),
      spanExpr (d ++ ":" ++ spanVar variable ++ expr ++ ":" ++ show (exprParam2 m)))).
Proof.
  intros E Hd. unfold extendedFormatterReduceFunc. rewrite E.
  unfold binders in Hd. simpl in Hd.
  repeat (destruct Hd as [<-|Hd]; [reflexivity|]). contradiction.
Qed.

Lemma reduce_join (inputs internal : StrSet) (m : ExtMatch) :
  exprType m = Some "join" ->
  extendedFormatterReduceFunc (inputs, internal) m
  = (let (variable, expr) := parseFormatExpression (orElse (exprParam1 m) EmptyString) in
     ((condAdd inputs internal variable,
       set_add (set_add internal "item") "index"),
      spanExpr ("join:" ++ spanVar variable ++ expr ++ ":" ++ show (exprParam2 m)))).
Proof.
  intros E. unfold extendedFormatterReduceFunc. rewrite E. reflexivity.
Qed.

Lemma reduce_expr (inputs internal : StrSet) (m : ExtMatch) (p1 : string) :
  exprType m = Some "expr" -> exprParam1 m = Some p1 ->
  extendedFormatterReduceFunc (inputs, internal) m
  = (let (ins, out) :=
       replaceAll identifierRegex (exprIdentifier internal) inputs p1 in
     ((ins, set_add internal (orElse (exprParam2 m) "data")),
      spanExpr ("expr:" ++ out ++ ":" ++ show (exprParam2 m)))).
Proof.
  intros E E1. unfold extendedFormatterReduceFunc. rewrite E, E1. cbn.
  now destruct (replaceAll identifierRegex (exprIdentifier internal) inputs p1).
Qed.

End TokenFacts.

(** ** The scan of the extended formatter *)

Module ScanFacts.
Import Str StrFacts RegexFacts TokenFacts.

Lemma extendedScan_match (st : ExtendedFormatterState) (s : string)
    (m : ExtMatch) (rest : string) :
  extendedFormatterRegex s = Some (m, rest) ->
  extendedScan st s
  = (let (st1, r) := extendedFormatterReduceFunc st m in
     let (st2, out) := extendedScan st1 rest in
     (st2, r ++ out)).
Proof.
  intros E. unfold extendedScan.
  apply (replaceAll_match _ _ extendedFormatterRegex_consumes _ _ _ _ E).
Qed.

(** A text that is one token is reduced once. *)
Lemma extendedScan_token (st : ExtendedFormatterState) (tok : string)
    (m : ExtMatch) :
  extendedFormatterRegex tok = Some (m, EmptyString) ->
  extendedScan st tok = extendedFormatterReduceFunc st m.
Proof.
  intros E. rewrite (extendedScan_match st _ _ _ E).
  destruct (extendedFormatterReduceFunc st m) as [st1 r].
  unfold extendedScan. rewrite replaceAll_nil. now rewrite append_nil_r.
Qed.

Lemma llmScan_match (variables : StrSet) (s : string) (g : string * string)
    (rest : string) :
  llmPromptRegex s = Some (g, rest) ->
  llmScan variables s
  = (let (st1, r) := llmReduceFunc variables g in
     let (st2, out) := llmScan st1 rest in
     (st2, r ++ out)).
Proof.
  intros E. unfold llmScan.
  apply (replaceAll_match _ _ llmPromptRegex_consumes _ _ _ _ E).
Qed.

Lemma set_has_add_same (s : StrSet) (x : string) : set_has (set_add s x) x = true.
Proof.
  unfold set_add. destruct (set_has s x) eqn:E; [exact E|].
  unfold set_has. rewrite existsb_app. simpl.
  now rewrite String.eqb_refl, orb_true_r.
Qed.

Lemma set_has_add_other (s : StrSet) (x y : string) :
  set_has s y = true -> set_has (set_add s x) y = true.
Proof.
  intros H. unfold set_add. destruct (set_has s x); [exact H|].
  unfold set_has in *. rewrite existsb_app. now rewrite H.
Qed.

Lemma set_has_In (s : StrSet) (x : string) : set_has s x = true <-> In x s.
Proof.
  unfold set_has. rewrite existsb_exists. split.
  - intros (y & Hy & E). apply String.eqb_eq in E. now subst.
  - intros H. exists x. split; [exact H|apply String.eqb_refl].
Qed.

Lemma set_add_In (s : StrSet) (x : string) : In x (set_add s x).
Proof. apply set_has_In, set_has_add_same. Qed.

Lemma condAdd_In (set1 set2 : StrSet) (x : string) :
  set_has set2 x = false -> In x (condAdd set1 set2 x).
Proof. intros H. unfold condAdd. rewrite H. apply set_add_In. Qed.

Lemma forallb_app (p : ascii -> bool) (a b : string) :
  forallb p (a ++ b) = forallb p a && forallb p b.
Proof.
  induction a as [|c a IH]; simpl; [reflexivity|].
  now rewrite IH, andb_assoc.
Qed.

Lemma parseFormatExpression_app (name tail : string) :
  forallb isWordChar name = true -> headIs isWordChar tail = false ->
  parseFormatExpression (name ++ tail) = (name, tail).
Proof.
  intros Hn Ht. unfold parseFormatExpression.
  now rewrite takeWhile_app, dropWhile_app.
Qed.

Lemma set_has_add (s : StrSet) (x y : string) :
  set_has (set_add s x) y = set_has s y || String.eqb y x.
Proof.
  unfold set_add. destruct (set_has s x) eqn:E.
  - destruct (String.eqb_spec y x) as [->|]; [now rewrite E|now rewrite orb_false_r].
  - unfold set_has. rewrite existsb_app. simpl. now rewrite orb_false_r.
Qed.

Lemma set_add_mono (s : StrSet) (x y : string) : In y s -> In y (set_add s x).
Proof. rewrite <- !set_has_In. apply set_has_add_other. Qed.

Lemma condAdd_mono (set1 set2 : StrSet) (x y : string) :
  In y set1 -> In y (condAdd set1 set2 x).
Proof.
  intros H. unfold condAdd. destruct (set_has set2 x); [exact H|].
  now apply set_add_mono.
Qed.

(** The reducer only adds to the inputs. *)
Lemma reduce_inputs_mono (y : string) (st : ExtendedFormatterState) (m : ExtMatch) :
  In y (fst st) -> In y (fst (fst (extendedFormatterReduceFunc st m))).
Proof.
  destruct st as [inputs internal]. simpl. intros H.
  unfold extendedFormatterReduceFunc.
  destruct (strictEq (exprType m) "parse_json" || strictEq (exprType m) "let"
            || strictEq (exprType m) "int" || strictEq (exprType m) "float").
  { cbn [fst]. now apply condAdd_mono. }
  destruct (strictEq (exprType m) "join").
  { cbn [fst]. now apply condAdd_mono. }
  destruct (strictEq (exprType m) "expr").
  { destruct (exprParam1 m) as [p1|]; [|exact H].
    pose proof (replaceFuel_invariant identifierRegex (exprIdentifier internal)
                  (In y) (fun st g Hst => condAdd_mono st internal g y Hst)
                  (String.length p1) inputs p1 H) as Hinv.
    unfold replaceAll.
    now destruct (replaceFuel identifierRegex (exprIdentifier internal)
                    (String.length p1) inputs p1). }
  destruct (negb _); [|exact H].
  cbn [fst]. now apply condAdd_mono.
Qed.

(** The scan only adds to the inputs. *)
Lemma extendedScan_inputs_mono (y : string) (st : ExtendedFormatterState)
    (text : string) :
  In y (fst st) -> In y (fst (fst (extendedScan st text))).
Proof.
  intros H. unfold extendedScan, replaceAll.
  apply (replaceFuel_invariant extendedFormatterRegex extendedFormatterReduceFunc
           (fun st => In y (fst st))); [|exact H].
  intros st' g. apply reduce_inputs_mono.
Qed.

(** The scan of a text followed by an opening brace and more is the scan of
    the text and then the scan of the rest: no match runs over the brace. *)
Lemma extendedScan_brace (pre x : string) (st : ExtendedFormatterState) :
  extendedScan st (pre ++ String "{" x)
  = (let (st1, out1) := extendedScan st pre in
     let (st2, out2) := extendedScan st1 (String "{" x) in
     (st2, out1 ++ out2)).
Proof.
  remember (String.length pre) as n eqn:Hn.
  assert (Hle : String.length pre <= n) by lia. clear Hn.
  revert pre st Hle. induction n as [|n IH]; intros pre st Hle.
  - destruct pre; [|simpl in Hle; lia]. cbn [append].
    unfold extendedScan at 2. rewrite replaceAll_nil.
    now destruct (extendedScan st (String "{" x)).
  - destruct pre as [|c s].
    + cbn [append]. unfold extendedScan at 2. rewrite replaceAll_nil.
      now destruct (extendedScan st (String "{" x)).
    + pose proof (extendedFormatterRegex_brace c s x) as E.
      destruct (extendedFormatterRegex (String c s)) as [[m r]|] eqn:Em.
      * cbn [extend] in E.
        rewrite (extendedScan_match _ _ _ _ E), (extendedScan_match _ _ _ _ Em).
        destruct (extendedFormatterReduceFunc st m) as [st1 h].
        apply extendedFormatterRegex_consumes in Em. simpl in Em, Hle.
        rewrite (IH r st1) by lia.
        destruct (extendedScan st1 r) as [a o1].
        destruct (extendedScan a (String "{" x)) as [b o2].
        now rewrite append_assoc.
      * cbn [extend] in E. unfold extendedScan at 1 2.
        cbn [append]. cbn [append] in E.
        rewrite (replaceAll_skip _ _ _ _ _ E), (replaceAll_skip _ _ _ _ _ Em).
        fold (extendedScan st (s ++ String "{" x)). fold (extendedScan st s).
        simpl in Hle. rewrite (IH s st) by lia.
        destruct (extendedScan st s) as [a o1].
        now destruct (extendedScan a (String "{" x)) as [b o2].
Qed.

(** Where a text continues with a match of the pattern, the scan reduces
    that match in the state the text leaves. *)
Lemma extendedScan_app_match (st : ExtendedFormatterState) (pre s : string)
    (m : ExtMatch) (rest : string) :
  extendedFormatterRegex s = Some (m, rest) ->
  extendedScan st (pre ++ s)
  = (let (st1, out1) := extendedScan st pre in
     let (st2, h) := extendedFormatterReduceFunc st1 m in
     let (st3, out3) := extendedScan st2 rest in
     (st3, out1 ++ h ++ out3)).
Proof.
  intros E. destruct s as [|c x]; [discriminate|].
  assert (c = "{"%char) as ->.
  { unfold extendedFormatterRegex in E.
    destruct (Ascii.eqb_spec c "{"); [assumption|discriminate]. }
  rewrite extendedScan_brace. destruct (extendedScan st pre) as [st1 out1].
  rewrite (extendedScan_match _ _ _ _ E).
  destruct (extendedFormatterReduceFunc st1 m) as [st2 h].
  now destruct (extendedScan st2 rest).
Qed.

(** Where a text ends with a match of the pattern. *)
Lemma extendedScan_app_token (st : ExtendedFormatterState) (pre tok : string)
    (m : ExtMatch) :
  extendedFormatterRegex tok = Some (m, EmptyString) ->
  extendedScan st (pre ++ tok)
  = (let (st1, out1) := extendedScan st pre in
     let (st2, h) := extendedFormatterReduceFunc st1 m in
     (st2, out1 ++ h)).
Proof.
  intros E. rewrite (extendedScan_app_match _ _ _ _ _ E).
  destruct (extendedScan st pre) as [st1 out1].
  destruct (extendedFormatterReduceFunc st1 m) as [st2 h].
  unfold extendedScan. rewrite replaceAll_nil. now rewrite append_nil_r.
Qed.

(** A match of the pattern is never rendered as the error token: the last
    return of the reducer is reached by no match. *)
Lemma match_never_error (s : string) (m : ExtMatch) (rest : string)
    (st : ExtendedFormatterState) :
  extendedFormatterRegex s = Some (m, rest) ->
  snd (extendedFormatterReduceFunc st m) <> errorToken.
Proof.
  destruct st as [inputs internal].
  unfold extendedFormatterRegex. destruct s as [|c s]; [discriminate|].
  destruct (Ascii.eqb c "{"); [|discriminate].
  destruct (matchDirective directives s) as [[m' r']|] eqn:E.
  - intros H; injection H as <- <-.
    apply matchDirective_groups in E as (d & Hd & Ht & _ & p1 & Hp1).
    unfold directives in Hd; simpl in Hd.
    destruct Hd as [<-|[<-|[<-|[<-|[<-|[<-|[]]]]]]].
    + rewrite (reduce_join _ _ _ Ht).
      destruct (parseFormatExpression _). apply spanExpr_not_error.
    + rewrite (reduce_binder _ _ _ _ Ht) by (simpl; auto).
      destruct (parseFormatExpression _). apply spanExpr_not_error.
    + rewrite (reduce_binder _ _ _ _ Ht) by (simpl; auto).
      destruct (parseFormatExpression _). apply spanExpr_not_error.
    + rewrite (reduce_expr _ _ _ _ Ht Hp1).
      destruct (replaceAll _ _ _ _). apply spanExpr_not_error.
    + rewrite (reduce_binder _ _ _ _ Ht) by (simpl; auto).
      destruct (parseFormatExpression _). apply spanExpr_not_error.
    + rewrite (reduce_binder _ _ _ _ Ht) by (simpl; auto).
      destruct (parseFormatExpression _). apply spanExpr_not_error.
  - unfold matchStd. destruct (dropWhile notBrace s) as [|c2 r]; [discriminate|].
    destruct (Ascii.eqb c2 "}"); [|discriminate].
    intros H; injection H as <- _. rewrite reduce_bracket. apply spanExpr_not_error.
Qed.

End ScanFacts.

(** ** The variables of a formatter text *)

Import Str StrFacts RegexFacts TokenFacts ScanFacts.

Lemma reformatInputKeys_scan (template : string) :
  reformatInputKeys template = fst (fst (extendedScan ([], []) template)).
Proof.
  unfold reformatInputKeys, FormatReducer_reduce, extendedScan. simpl.
  now destruct (replaceAll extendedFormatterRegex extendedFormatterReduceFunc
                  ([], []) template).
Qed.

Lemma takeWhile_all (p : ascii -> bool) (s : string) :
  forallb p s = true -> takeWhile p s = s.
Proof.
  intros H. rewrite <- (append_nil_r s) at 1.
  now apply takeWhile_app.
Qed.

(** A bracket around a word is no directive. *)
Lemma word_bracket (v rest : string) :
  forallb isWordChar v = true ->
  extendedFormatterRegex ("{" ++ v ++ "}" ++ rest) = Some (bracket v, rest).
Proof.
  intros Hv. apply regex_bracket.
  - apply (forallb_weaken isWordChar); [|exact Hv].
    intros c Hc. now apply notColonBrace_notBrace, isWordChar_notColonBrace.
  - apply matchDirective_none. intros d Hd.
    destruct (stripPrefix (d ++ ":") (v ++ "}" ++ rest)) as [out|] eqn:E;
      [|reflexivity].
    apply (stripPrefix_word isWordChar) in E as [_ E];
      [discriminate|reflexivity|now apply directives_words|exact Hv|reflexivity].
Qed.

(** C2, as amended: the text [{expr:a:b}{let:b:c}] has exactly the input key
    [a].  Its [expr] directive binds [b] before the [let] directive refers to
    it, so [b] is an internal name by then; the text that refers to [b]
    first, [{let:b:c}{expr:a:b}], has the input keys [b] and [a]. *)
Theorem expr_then_let_input_keys :
  reformatInputKeys "{expr:a:b}{let:b:c}" = ["a"]
  /\ reformatInputKeys "{let:b:c}{expr:a:b}" = ["b"; "a"].
Proof. split; vm_compute; reflexivity. Qed.

(** C2, as stated, fails: [b] is not among the input keys of
    [{expr:a:b}{let:b:c}]. *)
Lemma expr_then_let_excludes_b :
  ~ In "b" (reformatInputKeys "{expr:a:b}{let:b:c}").
Proof. vm_compute. intros [H|[]]. discriminate H. Qed.

(** C6: the text [{join:items:out}{item}-{index}] has exactly the input key
    [items]; whatever its arguments are, a join directive leaves [item] and
    [index] added to the internal names. *)
Theorem join_binds_item_and_index :
  reformatInputKeys "{join:items:out}{item}-{index}" = ["items"]
  /\ forall (inputs internal : StrSet) (whole : string)
       (p1 g3 p2 e ev : option string),
       snd (fst (extendedFormatterReduceFunc (inputs, internal)
                   (mkExtMatch whole (Some "join") p1 g3 p2 e ev)))
       = set_add (set_add internal "item") "index".
Proof.
  split; [vm_compute; reflexivity|].
  intros. rewrite reduce_join by reflexivity.
  now destruct (parseFormatExpression _).
Qed.

(** C4, as stated, fails: [out] is an input key of [{join:x:out}{out}]. *)
Lemma join_does_not_bind_out :
  reformatInputKeys "{join:x:out}{out}" = ["x"; "out"]
  /\ In "out" (reformatInputKeys "{join:x:out}{out}").
Proof. split; vm_compute; auto. Qed.

(** C4, as amended: a join directive adds only [item] and [index] to the
    internal names, not its second argument; in every text where
    [{join:x:out}] is followed by the plain reference [{out}], the name
    [out] is an input key, unless it is [item] or [index] or the text before
    the join has made it an internal name. *)
Theorem join_second_argument_not_internal (x out pre post : string) :
  x <> EmptyString -> forallb notColonBrace x = true ->
  out <> EmptyString -> forallb isWordChar out = true ->
  out <> "item" -> out <> "index" ->
  set_has (snd (fst (extendedScan ([], []) pre))) out = false ->
  (forall state,
      snd (fst (extendedFormatterReduceFunc state (directive2 "join" x out)))
      = set_add (set_add (snd state) "item") "index")
  /\ In out (reformatInputKeys
               (pre ++ "{join:" ++ x ++ ":" ++ out ++ "}{" ++ out ++ "}" ++ post)).
Proof.
  intros Hx Hxc Ho Hoc Hitem Hindex Hpre. split.
  - intros [inputs internal]. rewrite reduce_join by reflexivity.
    now destruct (parseFormatExpression _).
  - rewrite reformatInputKeys_scan.
    assert (E1 : extendedFormatterRegex
                   ("{join:" ++ x ++ ":" ++ out ++ "}{" ++ out ++ "}" ++ post)
                 = Some (directive2 "join" x out, "{" ++ out ++ "}" ++ post)).
    { apply (regex_directive2 "join" x out ("{" ++ out ++ "}" ++ post)); auto.
      - simpl; auto.
      - apply (forallb_weaken isWordChar); [|exact Hoc].
        exact isWordChar_notColonBrace. }
    rewrite (extendedScan_app_match _ _ _ _ _ E1).
    destruct (extendedScan ([], []) pre) as [[inputs internal] out1].
    cbn [fst snd] in Hpre.
    rewrite reduce_join by reflexivity.
    destruct (parseFormatExpression _) as [variable expr].
    rewrite (extendedScan_match _ _ _ _ (word_bracket out post Hoc)).
    rewrite reduce_bracket. rewrite takeWhile_all by exact Hoc.
    set (st2 := (condAdd (condAdd inputs internal variable)
                   (set_add (set_add internal "item") "index") out,
                 set_add (set_add internal "item") "index")).
    assert (Hin : In out (fst st2)).
    { apply condAdd_In. rewrite !set_has_add, Hpre.
      destruct (String.eqb_spec out "item"); [contradiction|].
      destruct (String.eqb_spec out "index"); [contradiction|]. reflexivity. }
    pose proof (extendedScan_inputs_mono out st2 post Hin) as Hmono.
    now destruct (extendedScan st2 post).
Qed.

Lemma join_second_argument_not_internal_witness :
  In "out" (reformatInputKeys
              ("{a}: " ++ "{join:" ++ "x" ++ ":" ++ "out" ++ "}{" ++ "out" ++ "}"
               ++ ", {let:b:out}")).
Proof.
  apply (join_second_argument_not_internal "x" "out" "{a}: " ", {let:b:out}");
    solve [discriminate | reflexivity].
Defined.

(** C10: for [parse_json], [let], [int], [float] and [expr] the second
    argument is optional: wherever it stands in a text, a token with one
    argument matches the directive form with no second group, is not
    rendered as the error token, and adds [data] to the internal names; a
    join with one argument adds [item] and [index] and nothing else. *)
Theorem second_argument_optional (d x pre : string) (state : ExtendedFormatterState) :
  x <> EmptyString -> forallb notColonBrace x = true ->
  In d ["join"; "parse_json"; "let"; "int"; "float"; "expr"] ->
  let token := "{" ++ d ++ ":" ++ x ++ "}" in
  let before := extendedScan state pre in
  let after := extendedScan state (pre ++ token) in
  let reduced := extendedFormatterReduceFunc (fst before) (directive1 d x) in
  (forall rest, extendedFormatterRegex (token ++ rest) = Some (directive1 d x, rest))
  /\ exprParam2 (directive1 d x) = None
  /\ after = (fst reduced, snd before ++ snd reduced)
  /\ snd reduced <> errorToken
  /\ snd (fst after)
     = if d =? "join" then set_add (set_add (snd (fst before)) "item") "index"
       else set_add (snd (fst before)) "data".
Proof.
  intros Hx Hxc Hd token before after reduced.
  assert (Hin : In d directives) by (simpl in *; tauto).
  assert (E : forall rest, extendedFormatterRegex (token ++ rest)
                           = Some (directive1 d x, rest)).
  { intros rest. unfold token. rewrite !append_assoc. now apply regex_directive1. }
  assert (E0 : extendedFormatterRegex token = Some (directive1 d x, EmptyString)).
  { apply (regex_directive1 d x EmptyString); assumption. }
  assert (Ha : after = (fst reduced, snd before ++ snd reduced)).
  { unfold after. rewrite (extendedScan_app_token _ _ _ _ E0).
    unfold reduced, before. destruct (extendedScan state pre) as [st1 out1].
    cbn [fst snd].
    now destruct (extendedFormatterReduceFunc st1 (directive1 d x)). }
  split; [exact E|]. split; [reflexivity|]. split; [exact Ha|].
  split; [apply (match_never_error _ _ _ _ E0)|].
  rewrite Ha. cbn [fst]. unfold reduced.
  destruct (fst before) as [inputs internal]. cbn [snd]. simpl in Hd.
  destruct Hd as [<-|[<-|[<-|[<-|[<-|[<-|[]]]]]]]; cbn [String.eqb Ascii.eqb Bool.eqb].
  - rewrite reduce_join by reflexivity. now destruct (parseFormatExpression _).
  - rewrite (reduce_binder _ _ _ "parse_json") by (simpl; auto).
    now destruct (parseFormatExpression _).
  - rewrite (reduce_binder _ _ _ "let") by (simpl; auto).
    now destruct (parseFormatExpression _).
  - rewrite (reduce_binder _ _ _ "int") by (simpl; auto).
    now destruct (parseFormatExpression _).
  - rewrite (reduce_binder _ _ _ "float") by (simpl; auto).
    now destruct (parseFormatExpression _).
  - rewrite (reduce_expr _ _ _ x) by reflexivity.
    now destruct (replaceAll _ _ _ _).
Qed.

Lemma second_argument_optional_witness :
  snd (fst (extendedScan ([], []) ("Hi {a}, " ++ "{" ++ "let" ++ ":" ++ "x" ++ "}")))
  = ["data"]
  /\ snd (fst (extendedScan ([], []) ("Hi {a}, " ++ "{" ++ "join" ++ ":" ++ "x" ++ "}")))
     = ["item"; "index"].
Proof.
  split.
  - apply (second_argument_optional "let" "x" "Hi {a}, " ([], []));
      [discriminate|reflexivity|simpl; auto].
  - apply (second_argument_optional "join" "x" "Hi {a}, " ([], []));
      [discriminate|reflexivity|simpl; auto].
Defined.

(** C3, as stated, fails: the token [{foo:bar}] is rendered as a plain
    reference, not as the error token, and adds [foo] to the inputs. *)
Lemma unknown_directive_not_error :
  extendedScan ([], []) "{foo:bar}"
  = ((["foo"], []), spanExpr (spanVar "foo" ++ ":bar"))
  /\ extendedScan ([], []) "{foo:bar}" <> (([], []), errorToken).
Proof. split; vm_compute; [reflexivity|discriminate]. Qed.

(** C3, as amended: a bracketed token whose content is a word, a colon and
    more text, where the word is none of the directive words, is matched by
    the bracket alternative of the pattern and reduced as a plain reference,
    wherever it stands in a text: it is not rendered as the error token, the
    internal names are unchanged, and the leading identifier of the content
    is added to the inputs unless it is an internal name. *)
Theorem unknown_directive_is_plain_reference (w r pre : string)
    (state : ExtendedFormatterState) :
  forallb notColonBrace w = true -> ~ In w directives ->
  forallb notBrace r = true ->
  let content := w ++ ":" ++ r in
  let variable := fst (parseFormatExpression content) in
  let expr := snd (parseFormatExpression content) in
  let before := extendedScan state pre in
  (forall rest, extendedFormatterRegex ("{" ++ content ++ "}" ++ rest)
                = Some (bracket content, rest))
  /\ extendedScan state (pre ++ "{" ++ content ++ "}")
     = ((condAdd (fst (fst before)) (snd (fst before)) variable, snd (fst before)),
        snd before ++ spanExpr (spanVar variable ++ expr))
  /\ spanExpr (spanVar variable ++ expr) <> errorToken.
Proof.
  intros Hw Hnd Hr content variable expr before.
  assert (E : forall rest, extendedFormatterRegex ("{" ++ content ++ "}" ++ rest)
                           = Some (bracket content, rest)).
  { intros rest. apply regex_bracket.
    - unfold content. rewrite forallb_app. cbn [forallb append].
      rewrite Hr. rewrite (forallb_weaken notColonBrace notBrace w
                             notColonBrace_notBrace Hw). reflexivity.
    - apply matchDirective_none. intros d Hd.
      unfold content. rewrite append_assoc.
      destruct (stripPrefix (d ++ ":") (w ++ (":" ++ r) ++ "}" ++ rest))
        as [out|] eqn:E; [|reflexivity].
      apply (stripPrefix_word (fun c => negb (Ascii.eqb c ":"))) in E as [E _].
      + subst d. contradiction.
      + reflexivity.
      + apply (forallb_weaken isWordChar); [|now apply directives_words].
        intros c Hc. apply isWordChar_notColonBrace in Hc.
        unfold notColonBrace in Hc. now destruct (Ascii.eqb c ":").
      + apply (forallb_weaken notColonBrace); [|exact Hw].
        intros c Hc. unfold notColonBrace in Hc. now destruct (Ascii.eqb c ":").
      + reflexivity. }
  split; [exact E|]. split; [|apply spanExpr_not_error].
  rewrite (extendedScan_app_token _ _ _ _ (E EmptyString)).
  unfold before. destruct (extendedScan state pre) as [[inputs internal] out1].
  now rewrite reduce_bracket.
Qed.

Lemma unknown_directive_is_plain_reference_witness :
  extendedScan ([], []) ("{let:a:bar}" ++ "{" ++ ("foo" ++ ":" ++ "bar") ++ "}")
  = ((["a"; "foo"], ["bar"]),
     snd (extendedScan ([], []) "{let:a:bar}") ++ spanExpr (spanVar "foo" ++ ":bar")).
Proof.
  apply (unknown_directive_is_plain_reference "foo" "bar" "{let:a:bar}" ([], [])).
  - reflexivity.
  - simpl. intuition discriminate.
  - reflexivity.
Defined.

(** C5, as stated, fails for LLM prompts: the whole content of the bracket,
    modifier tail included, becomes the variable. *)
Lemma llm_prompt_keeps_tail :
  llmInputKeys "{name.upper()}" = ["name.upper()"]
  /\ llmInputKeys "{name.upper()}" <> ["name"].
Proof. split; vm_compute; [reflexivity|discriminate]. Qed.

Lemma dropWhile_app_all (p : ascii -> bool) (a b : string) :
  forallb p a = true -> dropWhile p (a ++ b) = dropWhile p b.
Proof.
  intros Ha; induction a as [|c a IH]; simpl in *; [reflexivity|].
  apply andb_true_iff in Ha as [Hc Ha]. rewrite Hc. auto.
Qed.

(** A run of [p] over a text that has a character failing [p] stops at such
    a character of the text. *)
Lemma dropWhile_stops (p q : ascii -> bool) (s x : string) :
  forallb p s = false -> forallb q s = true ->
  exists c r, dropWhile p (s ++ x) = String c r /\ p c = false /\ q c = true.
Proof.
  induction s as [|c s IH]; simpl; [discriminate|].
  intros Hp Hq. apply andb_true_iff in Hq as [Hc Hq].
  destruct (p c) eqn:E.
  - simpl in Hp. exact (IH Hp Hq).
  - exists c, (s ++ x). auto.
Qed.

Lemma word_lazyDot (c : ascii) : isWordChar c = true -> lazyDot c = true.
Proof.
  intros Hc. unfold lazyDot, isLineTerminator.
  unfold isWordChar, inRange in Hc.
  destruct (Ascii.eqb_spec c "}") as [->|]; [discriminate|].
  destruct (Ascii.eqb_spec c (ascii_of_nat 10)) as [->|]; [discriminate|].
  destruct (Ascii.eqb_spec c (ascii_of_nat 13)) as [->|]; [discriminate|].
  reflexivity.
Qed.

(** In a text without braces the dot of the prompt pattern fails exactly at
    the line terminators. *)
Lemma lazyDot_no_terminator (s : string) :
  forallb notBrace s = true ->
  forallb lazyDot s = forallb (fun c => negb (isLineTerminator c)) s.
Proof.
  induction s as [|c s IH]; simpl; [reflexivity|].
  intros H. apply andb_true_iff in H as [Hc H]. rewrite (IH H). f_equal.
  unfold lazyDot. unfold notBrace, isBrace in Hc.
  destruct (Ascii.eqb c "}"); [|reflexivity].
  now rewrite orb_true_r in Hc.
Qed.

(** The scan of a prompt copies a text without braces. *)
Lemma llmScan_copy (text rest : string) (variables : StrSet) :
  forallb notBrace text = true ->
  llmScan variables (text ++ rest)
  = (let (st, out) := llmScan variables rest in (st, text ++ out)).
Proof.
  unfold llmScan. induction text as [|c text IH]; intros H.
  - simpl. now destruct (replaceAll llmPromptRegex llmReduceFunc variables rest).
  - simpl in H. apply andb_true_iff in H as [Hc H]. cbn [append].
    assert (Hn : llmPromptRegex (String c (text ++ rest)) = None).
    { unfold llmPromptRegex. unfold notBrace, isBrace in Hc.
      destruct (Ascii.eqb c "{"); [discriminate|reflexivity]. }
    rewrite (replaceAll_skip _ _ _ _ _ Hn), (IH H).
    now destruct (replaceAll llmPromptRegex llmReduceFunc variables rest).
Qed.

(** C5, as amended: in a Reformat formatter text, a plain-reference token
    with a non-empty modifier tail adds only its leading identifier to the
    inputs (unless it is an internal name), wherever the token stands, and
    the tail is copied into the rendering; where the scan of an LLM prompt
    reaches such a token, the whole content of the bracket, tail included,
    is added to the variables if the tail contains no line terminator; if
    it contains one, the prompt pattern does not match at that bracket, the
    token is copied as it is and adds no variable. *)
Theorem plain_reference_with_tail (name tail pre rest : string) :
  name <> EmptyString -> forallb isWordChar name = true ->
  tail <> EmptyString -> headIs isWordChar tail = false ->
  forallb notBrace tail = true ->
  (~ In name directives \/ headIs (Ascii.eqb ":") tail = false) ->
  (forall state,
     extendedScan state (pre ++ "{" ++ name ++ tail ++ "}" ++ rest)
     = (let (st1, out1) := extendedScan state pre in
        let (st2, out2) :=
          extendedScan (condAdd (fst st1) (snd st1) name, snd st1) rest in
        (st2, out1 ++ spanExpr (spanVar name ++ tail) ++ out2)))
  /\ (forallb (fun c => negb (isLineTerminator c)) tail = true ->
      forall variables,
        llmScan variables ("{" ++ name ++ tail ++ "}" ++ rest)
        = (let (st2, out) := llmScan (set_add variables (name ++ tail)) rest in
           (st2, spanExpr (spanVar (name ++ tail)) ++ out)))
  /\ (forallb (fun c => negb (isLineTerminator c)) tail = false ->
      llmPromptRegex ("{" ++ name ++ tail ++ "}" ++ rest) = None
      /\ forall variables,
           llmScan variables ("{" ++ name ++ tail ++ "}" ++ rest)
           = (let (st2, out) := llmScan variables rest in
              (st2, "{" ++ name ++ tail ++ "}" ++ out))).
Proof.
  intros Hn Hnc Ht Hth Htb Hdir.
  assert (Hnb : forallb notBrace name = true).
  { apply (forallb_weaken isWordChar); [|exact Hnc].
    intros c Hc. now apply notColonBrace_notBrace, isWordChar_notColonBrace. }
  assert (Hnl : forallb lazyDot name = true).
  { apply (forallb_weaken isWordChar); [exact word_lazyDot|exact Hnc]. }
  rewrite <- (lazyDot_no_terminator tail Htb).
  split; [|split].
  - intros state.
    assert (E : extendedFormatterRegex ("{" ++ (name ++ tail) ++ "}" ++ rest)
                = Some (bracket (name ++ tail), rest)).
    { apply regex_bracket.
      - now rewrite forallb_app, Hnb, Htb.
      - apply matchDirective_none. intros d Hd. rewrite append_assoc.
        destruct (stripPrefix (d ++ ":") (name ++ tail ++ "}" ++ rest))
          as [out|] eqn:E; [|reflexivity].
        apply (stripPrefix_word isWordChar) in E as [E1 E2].
        + subst d. destruct Hdir as [Hdir|Hdir]; [contradiction|].
          destruct tail as [|c tail]; [congruence|].
          cbn in E2, Hdir. injection E2 as -> _. discriminate Hdir.
        + reflexivity.
        + now apply directives_words.
        + exact Hnc.
        + destruct tail; [congruence|exact Hth]. }
    rewrite append_assoc in E.
    rewrite (extendedScan_app_match _ _ _ _ _ E).
    destruct (extendedScan state pre) as [[inputs internal] out1].
    rewrite reduce_bracket.
    pose proof (parseFormatExpression_app name tail Hnc Hth) as P.
    unfold parseFormatExpression in P. injection P as -> ->. reflexivity.
  - intros Hld variables.
    assert (E : llmPromptRegex ("{" ++ (name ++ tail) ++ "}" ++ rest)
                = Some (("{" ++ (name ++ tail) ++ "}", name ++ tail), rest)).
    { unfold llmPromptRegex. cbn [append]. rewrite Ascii.eqb_refl.
      assert (Hall : forallb lazyDot (name ++ tail) = true)
        by now rewrite forallb_app, Hld, Hnl.
      rewrite takeWhile_app, dropWhile_app by auto.
      now rewrite Ascii.eqb_refl. }
    rewrite append_assoc in E.
    rewrite (llmScan_match _ _ _ _ E). reflexivity.
  - intros Hld.
    assert (Hnone : llmPromptRegex ("{" ++ name ++ tail ++ "}" ++ rest) = None).
    { unfold llmPromptRegex. cbn [append]. rewrite Ascii.eqb_refl.
      rewrite (dropWhile_app_all lazyDot name _ Hnl).
      destruct (dropWhile_stops lazyDot notBrace tail (String "}" rest) Hld Htb)
        as (c & r & -> & _ & Hc).
      unfold notBrace, isBrace in Hc.
      destruct (Ascii.eqb c "}"); [|reflexivity].
      now rewrite orb_true_r in Hc. }
    split; [exact Hnone|]. intros variables.
    assert (Hclose : llmPromptRegex (String "}" rest) = None) by reflexivity.
    cbn [append] in Hnone |- *. unfold llmScan at 1.
    rewrite (replaceAll_skip _ _ _ _ _ Hnone).
    fold (llmScan variables (name ++ tail ++ String "}" rest)).
    rewrite <- (append_assoc name tail (String "}" rest)).
    rewrite llmScan_copy by now rewrite forallb_app, Hnb, Htb.
    unfold llmScan at 1. rewrite (replaceAll_skip _ _ _ _ _ Hclose).
    fold (llmScan variables rest).
    destruct (llmScan variables rest) as [st2 out].
    now rewrite append_assoc.
Qed.

Lemma plain_reference_with_tail_witness :
  fst (extendedScan ([], [])
         ("Dear " ++ "{" ++ "name" ++ ".upper()" ++ "}" ++ ", {greeting}"))
  = (["name"; "greeting"], [])
  /\ fst (llmScan [] ("{" ++ "name" ++ ".upper()" ++ "}" ++ ", {greeting}"))
     = ["name.upper()"; "greeting"]
  /\ fst (llmScan [] ("{" ++ "name" ++ String (ascii_of_nat 10) ".upper()" ++ "}"
                       ++ ", {greeting}"))
     = ["greeting"].
Proof.
  destruct (plain_reference_with_tail "name" ".upper()" "Dear " ", {greeting}")
    as (H1 & H2 & _); try solve [discriminate | reflexivity].
  - left. simpl. intuition discriminate.
  - split; [rewrite H1; reflexivity|].
    split; [rewrite H2 by reflexivity; reflexivity|].
    unshelve epose proof
      (plain_reference_with_tail "name" (String (ascii_of_nat 10) ".upper()")
         "Dear " ", {greeting}" _ _ _ _ _ _) as (_ & _ & H3);
      [discriminate | reflexivity | discriminate | reflexivity | reflexivity
      | left; simpl; intuition discriminate | ].
    destruct (H3 eq_refl) as [_ H4]. rewrite H4. reflexivity.
Defined.

(** ** The chain spec tree *)

Module TreeFacts.
Import SpecControl.

(** Induction over a tree, with the property on every child. *)
Lemma ChainSpec_induction (P : ChainSpec -> Prop) :
  (forall s, P (llm_spec s)) ->
  (forall id chains, Forall P chains -> P (sequential_spec id chains)) ->
  (forall id key cases default_case,
      Forall (fun kc => P (snd kc)) cases ->
      (forall d, default_case = Some d -> P d) ->
      P (case_spec id key cases default_case)) ->
  (forall s, P (reformat_spec s)) ->
  (forall s, P (api_spec s)) ->
  forall t, P t.
Proof.
  intros Hllm Hseq Hcase Href Hapi.
  fix IH 1. intros [s|id chains|id key cases d|s|s].
  - apply Hllm.
  - apply Hseq. induction chains as [|c chains IHl]; constructor.
    + apply IH.
    + exact IHl.
  - apply Hcase.
    + induction cases as [|[k c] cases IHl]; constructor.
      * apply IH.
      * exact IHl.
    + intros d' E. destruct d as [d|]; [|discriminate].
      injection E as <-. apply IH.
  - apply Href.
  - apply Hapi.
Qed.

Section ReplaceNode.
Variable new : ChainSpec.

Lemma find_new : findByChainId (chain_id new) new = Some new.
Proof.
  destruct new; simpl; now rewrite Nat.eqb_refl.
Qed.

(** The children of a Sequential spec. *)
Lemma agrees_chains (chains : list ChainSpec) :
  Forall (agrees new) chains ->
  (~ In (chain_id new) (flat_map chainIds chains) ->
     replaceFirst (replaceNode new) chains = (chains, false)
     /\ findFirst (findByChainId (chain_id new)) chains = None)
  /\ (In (chain_id new) (flat_map chainIds chains) ->
        snd (replaceFirst (replaceNode new) chains) = true
        /\ findFirst (findByChainId (chain_id new))
             (fst (replaceFirst (replaceNode new) chains)) = Some new).
Proof.
  induction 1 as [|c chains [Hout Hin] _ [IHout IHin]]; simpl.
  - split; [auto|contradiction].
  - split.
    + intros Hn. rewrite in_app_iff in Hn.
      destruct Hout as [-> ->]; [tauto|].
      destruct IHout as [-> ->]; [tauto|]. auto.
    + intros Hi. apply in_app_iff in Hi.
      destruct (in_dec Nat.eq_dec (chain_id new) (chainIds c)) as [Hc|Hc].
      * destruct (Hin Hc) as [Hf Hfind].
        destruct (replaceNode new c) as [c' f]. simpl in Hf, Hfind. subst f.
        simpl. now rewrite Hfind.
      * destruct (Hout Hc) as [-> Hfind].
        destruct IHin as [Hf Hfind']; [tauto|].
        destruct (replaceFirst (replaceNode new) chains) as [l'' f'].
        simpl in *. now rewrite Hfind.
Qed.

(** The cases of a Case spec. *)
Lemma agrees_cases (cases : list (string * ChainSpec)) :
  Forall (fun kc => agrees new (snd kc)) cases ->
  (~ In (chain_id new) (flat_map (fun kc => chainIds (snd kc)) cases) ->
     replaceFirst (fun kc => let (c', found) := replaceNode new (snd kc) in
                             ((fst kc, c'), found)) cases = (cases, false)
     /\ findFirst (fun kc => findByChainId (chain_id new) (snd kc)) cases = None)
  /\ (In (chain_id new) (flat_map (fun kc => chainIds (snd kc)) cases) ->
        snd (replaceFirst (fun kc => let (c', found) := replaceNode new (snd kc) in
                                     ((fst kc, c'), found)) cases) = true
        /\ findFirst (fun kc => findByChainId (chain_id new) (snd kc))
             (fst (replaceFirst
                     (fun kc => let (c', found) := replaceNode new (snd kc) in
                                ((fst kc, c'), found)) cases)) = Some new).
Proof.
  induction 1 as [|[k c] cases [Hout Hin] _ [IHout IHin]]; simpl.
  - split; [auto|contradiction].
  - simpl in Hout, Hin. split.
    + intros Hn. rewrite in_app_iff in Hn.
      destruct Hout as [-> ->]; [tauto|].
      destruct IHout as [-> ->]; [tauto|]. auto.
    + intros Hi. apply in_app_iff in Hi.
      destruct (in_dec Nat.eq_dec (chain_id new) (chainIds c)) as [Hc|Hc].
      * destruct (Hin Hc) as [Hf Hfind].
        destruct (replaceNode new c) as [c' f]. simpl in Hf, Hfind. subst f.
        simpl. now rewrite Hfind.
      * destruct (Hout Hc) as [-> Hfind].
        destruct IHin as [Hf Hfind']; [tauto|].
        destruct (replaceFirst _ cases) as [l'' f'].
        simpl in *. now rewrite Hfind.
Qed.

Lemma agrees_all (t : ChainSpec) : (agrees new) t.
Proof.
  induction t as [s|i chains IH|i key cases d IHc IHd|s|s]
    using ChainSpec_induction.
  - unfold SpecControl.agrees. simpl.
    destruct (Nat.eqb_spec (llm_chain_id s) (chain_id new)) as [E|E].
    + split; [tauto|]. intros _. simpl. split; [reflexivity|apply find_new].
    + split; [auto|]. intros [H|[]]. congruence.
  - destruct (agrees_chains chains IH) as [Hout Hin].
    unfold SpecControl.agrees. simpl.
    destruct (Nat.eqb_spec i (chain_id new)) as [E|E].
    + split; [tauto|]. intros _. simpl. split; [reflexivity|apply find_new].
    + split.
      * intros Hn. destruct Hout as [-> ->]; [tauto|]. auto.
      * intros [H|H]; [congruence|].
        destruct (Hin H) as [Hf Hfind].
        destruct (replaceFirst (replaceNode new) chains) as [l f].
        simpl in *. destruct (Nat.eqb_spec i (chain_id new)); [congruence|].
        now rewrite Hf, Hfind.
  - destruct (agrees_cases cases IHc) as [Hout Hin].
    unfold SpecControl.agrees. simpl.
    destruct (Nat.eqb_spec i (chain_id new)) as [E|E].
    + split; [tauto|]. intros _. simpl. split; [reflexivity|apply find_new].
    + split.
      * intros Hn. rewrite in_app_iff in Hn.
        destruct Hout as [-> ->]; [tauto|].
        destruct d as [d|]; [|auto].
        destruct (IHd d eq_refl) as [[-> ->] _]; [tauto|]. auto.
      * intros [H|H]; [congruence|]. apply in_app_iff in H.
        destruct (in_dec Nat.eq_dec (chain_id new)
                    (flat_map (fun kc => chainIds (snd kc)) cases)) as [Hc|Hc].
        -- destruct (Hin Hc) as [Hf Hfind].
           destruct (replaceFirst _ cases) as [l f].
           simpl in Hf, Hfind. subst f. simpl.
           destruct (Nat.eqb_spec i (chain_id new)); [congruence|]. now rewrite Hfind.
        -- destruct (Hout Hc) as [-> Hfind].
           destruct d as [d|]; [|simpl in H; tauto].
           destruct (IHd d eq_refl) as [_ [Hf Hfind']]; [tauto|].
           destruct (replaceNode new d) as [d' f]. simpl in Hf, Hfind'. subst f.
           simpl. destruct (Nat.eqb_spec i (chain_id new)); [congruence|].
           now rewrite Hfind, Hfind'.
  - unfold SpecControl.agrees. simpl.
    destruct (Nat.eqb_spec (reformat_chain_id s) (chain_id new)) as [E|E].
    + split; [tauto|]. intros _. simpl. split; [reflexivity|apply find_new].
    + split; [auto|]. intros [H|[]]. congruence.
  - unfold SpecControl.agrees. simpl.
    destruct (Nat.eqb_spec (api_chain_id s) (chain_id new)) as [E|E].
    + split; [tauto|]. intros _. simpl. split; [reflexivity|apply find_new].
    + split; [auto|]. intros [H|[]]. congruence.
Qed.
End ReplaceNode.

(** Replacing a node whose id does not occur finds nothing and rebuilds the
    same tree. *)
Lemma replaceNode_absent (new t : ChainSpec) :
  ~ In (chain_id new) (chainIds t) -> replaceNode new t = (t, false).
Proof. intros H. now apply (agrees_all new t). Qed.

Lemma findByChainId_absent (id : nat) (t : ChainSpec) :
  ~ In id (chainIds t) -> findByChainId id t = None.
Proof.
  intros H. now apply (agrees_all (sequential_spec id []) t).
Qed.

(** After a replacement that found its node, find returns the new node. *)
Lemma replaceNode_present (new t : ChainSpec) :
  In (chain_id new) (chainIds t) ->
  snd (replaceNode new t) = true
  /\ findByChainId (chain_id new) (fst (replaceNode new t)) = Some new.
Proof. intros H. now apply (agrees_all new t). Qed.

End TreeFacts.

(** ** The editor session *)

Import TreeFacts.

(** C1, as stated, fails: from the initial session, inserting an LLM spec
    changes the committed tree, and the session is clean afterwards. *)
Lemma insert_changes_committed :
  exists s',
    insertChainSpec SpecControl.insertChainSpec initialSession "llm_spec" 0 0 = Ok s'
    /\ chainSpec s' <> chainSpec initialSession
    /\ readyToInteract Sets.deepEquals s' = true.
Proof.
  eexists. split; [reflexivity|]. split; [discriminate|reflexivity].
Qed.

(** C1, as amended: replace (the session's [updateChainSpec]) modifies only
    the working tree; insert stores the new tree as both the committed and
    the working tree and advances the id counter by one. *)
Theorem insert_commits_replace_does_not
    (insertGenerated : option ChainSpec -> nat -> string -> nat -> nat -> Result ChainSpec)
    (update : option ChainSpec -> ChainSpec -> SpecControl.UpdateResult) (s : Session) :
  (forall spec s',
      updateDirtyChainSpec update s spec = Ok s' ->
      chainSpec s' = chainSpec s
      /\ dirtyChainSpec s' = SpecControl.updated (update (dirtyChainSpec s) spec)
      /\ nextChainId s' = nextChainId s)
  /\ (forall type chainId index s',
         insertChainSpec insertGenerated s type chainId index = Ok s' ->
         exists newSpec,
           insertGenerated (dirtyChainSpec s) (nextChainId s) type chainId index
           = Ok newSpec
           /\ chainSpec s' = Some newSpec
           /\ dirtyChainSpec s' = Some newSpec
           /\ nextChainId s' = nextChainId s + 1).
Proof.
  split.
  - intros spec s' H. unfold updateDirtyChainSpec in H.
    destruct (SpecControl.found (update (dirtyChainSpec s) spec)); [|discriminate].
    injection H as <-. auto.
  - intros type chainId index s' H. unfold insertChainSpec in H.
    destruct (insertGenerated _ _ _ _ _) as [newSpec|e]; [|discriminate].
    injection H as <-. exists newSpec. auto.
Qed.

(** A session whose committed and working tree is one LLM spec with id 0. *)
Lemma insert_commits_replace_does_not_witness :
  let root := llm_spec (mkLLMSpec 0 [] EmptyString EmptyString EmptyString) in
  let s := mkSession (Some root) EmptyString (Some root) 1 None false in
  let edited := llm_spec (mkLLMSpec 0 ["name"] "Hi {name}" "llm" "text") in
  (exists s', updateDirtyChainSpec SpecControl.updateChainSpec s edited = Ok s'
              /\ chainSpec s' = Some root /\ dirtyChainSpec s' = Some edited)
  /\ (exists s', insertChainSpec SpecControl.insertChainSpec initialSession
                   "llm_spec" 0 0 = Ok s'
                 /\ chainSpec s' = Some root /\ dirtyChainSpec s' = Some root).
Proof.
  intros root s edited. split.
  - eexists. split; [reflexivity|].
    destruct (insert_commits_replace_does_not
                SpecControl.insertChainSpec SpecControl.updateChainSpec s)
      as [H _].
    destruct (H edited _ eq_refl) as (H1 & H2 & _). split; [exact H1|exact H2].
  - eexists. split; [reflexivity|].
    destruct (insert_commits_replace_does_not
                SpecControl.insertChainSpec SpecControl.updateChainSpec
                initialSession) as [_ H].
    destruct (H "llm_spec" 0 0 _ eq_refl) as (newSpec & E & H1 & H2 & _).
    injection E as <-. split; [exact H1|exact H2].
Defined.

(** C7, as stated, fails: before a tree is loaded the committed and the
    working tree are equal, both absent, and the session is not ready. *)
Lemma not_ready_before_load :
  chainSpec initialSession = dirtyChainSpec initialSession
  /\ Sets.deepEquals (chainSpec initialSession) (dirtyChainSpec initialSession) = true
  /\ readyToInteract Sets.deepEquals initialSession = false.
Proof. repeat split. Qed.

(** C7, as amended: the session is ready exactly when a committed tree is
    present and [deepEquals] holds of the committed and the working tree. *)
Theorem ready_iff_loaded_and_equal
    (deepEquals : option ChainSpec -> option ChainSpec -> bool) (s : Session) :
  readyToInteract deepEquals s = true
  <-> chainSpec s <> None /\ deepEquals (chainSpec s) (dirtyChainSpec s) = true.
Proof.
  unfold readyToInteract. destruct (chainSpec s) as [c|].
  - split; [intros H; split; [discriminate|exact H]|tauto].
  - split; [discriminate|]. intros [H _]. congruence.
Qed.

(** C8: when no node of the working tree has the id of the replacement, or
    there is no working tree, [updateChainSpec] reports not found with the
    tree as it was, and the session throws and keeps its state. *)
Theorem replace_absent_id_throws (s : Session) (spec : ChainSpec) :
  (forall t, dirtyChainSpec s = Some t -> ~ In (chain_id spec) (chainIds t)) ->
  SpecControl.updateChainSpec (dirtyChainSpec s) spec
  = SpecControl.mkUpdateResult false (dirtyChainSpec s)
  /\ updateDirtyChainSpec SpecControl.updateChainSpec s spec
     = Throw ("Could not find chain spec with id " ++ Str.ofNat (chain_id spec)
              ++ " to update")
  /\ stateAfter s (updateDirtyChainSpec SpecControl.updateChainSpec s spec) = s.
Proof.
  intros H.
  assert (E : SpecControl.updateChainSpec (dirtyChainSpec s) spec
              = SpecControl.mkUpdateResult false (dirtyChainSpec s)).
  { unfold SpecControl.updateChainSpec.
    destruct (dirtyChainSpec s) as [t|]; [|reflexivity].
    now rewrite (replaceNode_absent spec t (H t eq_refl)). }
  split; [exact E|].
  unfold updateDirtyChainSpec. rewrite E. simpl. auto.
Qed.

Lemma replace_absent_id_throws_witness :
  let root := sequential_spec 0
                [llm_spec (mkLLMSpec 1 [] EmptyString EmptyString EmptyString);
                 case_spec 2 "kind" [("a", sequential_spec 3 [])] None] in
  let s := mkSession (Some root) EmptyString (Some root) 4 None false in
  updateDirtyChainSpec SpecControl.updateChainSpec s (sequential_spec 7 [])
  = Throw "Could not find chain spec with id 7 to update".
Proof.
  intros root s.
  apply (replace_absent_id_throws s (sequential_spec 7 [])).
  intros t E. injection E as <-. simpl. intuition discriminate.
Defined.

(** ** The API designer *)

(** C9, as stated, fails: with the API designer at the root, the text [{}]
    parses and the working node gets the empty headers; the text that
    follows does not parse, and the working node gets the headers of the
    committed node, not the empty headers parsed last.  The flag is raised
    and the text is kept. *)
Lemma invalid_headers_revert_to_committed :
  let committed := mkAPISpec 0 [] "http://host" "GET" [("Accept", "text/plain")]
                     None "out" in
  let sess := mkSession (Some (api_spec committed)) EmptyString
                (Some (api_spec committed)) 1 None false in
  let st := mkAPIDesignerState "http://host" "GET" "{Accept: text/plain}" false
              None "out" in
  exists sess1 st1 sess2 st2,
    typeHeadersAtRoot parseEmptyObject SpecControl.updateChainSpec sess st "{}"
    = Some (Ok (sess1, st1))
    /\ dirtyChainSpec sess1
       = Some (api_spec (mkAPISpec 0 [] "http://host" "GET" [] None "out"))
    /\ st_headersError st1 = false
    /\ typeHeadersAtRoot parseEmptyObject SpecControl.updateChainSpec sess1 st1 "{"
       = Some (Ok (sess2, st2))
    /\ dirtyChainSpec sess2 = Some (api_spec committed)
    /\ headers committed <> []
    /\ st_headersError st2 = true
    /\ st_headers st2 = "{".
Proof.
  intros committed sess st. do 4 eexists.
  split; [reflexivity|]. split; [reflexivity|]. split; [reflexivity|].
  split; [reflexivity|]. split; [reflexivity|]. split; [discriminate|].
  split; reflexivity.
Qed.

(** C9, as amended: when the text of the headers does not parse,
    [tryParseHeaders] catches the error, raises the error flag and returns
    the headers of the spec the designer holds, which is a node of the
    committed tree and not necessarily what was parsed last; the update
    effect sends that spec's id and those headers with the url, method,
    body, output key and input keys of the designer state, replaces the
    node in the working tree with it, returns normally when the node is in
    the working tree, leaves the committed tree as it is, and leaves the
    text the user typed and the other cells in the designer state. *)
Theorem headers_parse_failure (JSON_parse : string -> Result Headers)
    (sess : Session) (spec : APISpec) (st : APIDesignerState)
    (e : string) (t : ChainSpec) :
  JSON_parse (st_headers st) = Throw e ->
  dirtyChainSpec sess = Some t ->
  In (api_chain_id spec) (chainIds t) ->
  let emitted := {| api_chain_id := api_chain_id spec;
                    api_input_keys := Array_from (apiVars st);
                    url := st_url st;
                    method := st_method st;
                    headers := headers spec;
                    body := st_body st;
                    api_output_key := st_outputKey st |} in
  let t' := fst (SpecControl.replaceNode (api_spec emitted) t) in
  tryParseHeaders JSON_parse spec st (st_headers st)
  = (setHeadersError st true, headers spec)
  /\ apiEmitted JSON_parse spec st = (setHeadersError st true, emitted)
  /\ apiUpdateEffect JSON_parse spec
       (updateDirtyChainSpec SpecControl.updateChainSpec sess) st
     = Ok (setDirtyChainSpec sess (Some t'), setHeadersError st true)
  /\ SpecControl.findByChainId (api_chain_id spec) t' = Some (api_spec emitted)
  /\ chainSpec (setDirtyChainSpec sess (Some t')) = chainSpec sess
  /\ st_headers (setHeadersError st true) = st_headers st
  /\ st_headersError (setHeadersError st true) = true
  /\ (chainSpec sess = Some (api_spec spec) ->
      typeHeadersAtRoot JSON_parse SpecControl.updateChainSpec sess
        (setHeaders st (st_headers st)) (st_headers st)
      = Some (Ok (setDirtyChainSpec sess (Some t'), setHeadersError st true))).
Proof.
  intros Hparse Hdirty Hin emitted t'.
  assert (Htry : tryParseHeaders JSON_parse spec st (st_headers st)
                 = (setHeadersError st true, headers spec)).
  { unfold tryParseHeaders. now rewrite Hparse. }
  assert (Hem : apiEmitted JSON_parse spec st = (setHeadersError st true, emitted)).
  { unfold apiEmitted. now rewrite Htry. }
  destruct (replaceNode_present (api_spec emitted) t Hin) as [Hfound Hfind].
  assert (Heff : apiUpdateEffect JSON_parse spec
                   (updateDirtyChainSpec SpecControl.updateChainSpec sess) st
                 = Ok (setDirtyChainSpec sess (Some t'), setHeadersError st true)).
  { unfold apiUpdateEffect. rewrite Hem.
    unfold updateDirtyChainSpec, SpecControl.updateChainSpec. rewrite Hdirty.
    unfold t'. destruct (SpecControl.replaceNode (api_spec emitted) t) as [t1 f].
    simpl in Hfound. subst f. reflexivity. }
  split; [exact Htry|]. split; [exact Hem|]. split; [exact Heff|].
  split; [exact Hfind|]. split; [reflexivity|]. split; [reflexivity|].
  split; [reflexivity|].
  intros Hroot. unfold typeHeadersAtRoot. rewrite Hroot.
  replace (setHeaders (setHeaders st (st_headers st)) (st_headers st)) with st
    by now destruct st.
  now rewrite Heff.
Qed.

Lemma headers_parse_failure_witness :
  let spec := mkAPISpec 1 [] "http://host/{path}" "GET" [("Accept", "text/plain")]
                None "out" in
  let root := sequential_spec 0 [api_spec spec] in
  let sess := mkSession (Some root) EmptyString (Some root) 2 None false in
  let st := mkAPIDesignerState "http://host/{path}" "GET" "{ Accept: " false
              None "out" in
  apiUpdateEffect parseEmptyObject spec
    (updateDirtyChainSpec SpecControl.updateChainSpec sess) st
  = Ok (setDirtyChainSpec sess
          (Some (sequential_spec 0
                   [api_spec (mkAPISpec 1 ["path"] "http://host/{path}" "GET"
                                [("Accept", "text/plain")] None "out")])),
        setHeadersError st true).
Proof.
  intros spec root sess st.
  apply (headers_parse_failure parseEmptyObject sess spec st "SyntaxError" root).
  - reflexivity.
  - reflexivity.
  - simpl. auto.
Defined.

(* ================================================================= *)
(** * Further properties of the designer and the session *)

(** ** More on the replace loop *)

Section ReplaceMore.
Context {G S : Type}.
Variable matchAt : string -> option (G * string).
Variable callback : S -> G -> S * string.

(** A property of the state that the callback keeps on every match of the
    pattern holds of the final state. *)
Lemma replaceFuel_invariant_match (P : S -> Prop) :
  (forall st s g rest, matchAt s = Some (g, rest) -> P st ->
                       P (fst (callback st g))) ->
  forall fuel st s, P st -> P (fst (replaceFuel matchAt callback fuel st s)).
Proof.
  intros Hcb. induction fuel as [|fuel IH]; intros st s Hst.
  - now destruct s.
  - destruct s as [|c s]; [exact Hst|]. simpl.
    destruct (matchAt (String c s)) as [[g rest]|] eqn:E.
    + specialize (Hcb st _ g rest E Hst). destruct (callback st g) as [st1 r].
      specialize (IH st1 rest Hcb).
      now destruct (replaceFuel matchAt callback fuel st1 rest).
    + specialize (IH st s Hst).
      now destruct (replaceFuel matchAt callback fuel st s).
Qed.

(** The pattern matches only at an opening brace. *)
Hypothesis at_open : forall c s,
  Ascii.eqb c "{" = false -> matchAt (String c s) = None.

(** Text without an opening brace is copied. *)
Lemma replaceAll_copy (text rest : string) (st : S) :
  Str.forallb notOpen text = true ->
  replaceAll matchAt callback st (text ++ rest)
  = (let (st', out) := replaceAll matchAt callback st rest in
     (st', text ++ out)).
Proof.
  induction text as [|c text IH]; intros H.
  - simpl. now destruct (replaceAll matchAt callback st rest).
  - simpl in H. apply andb_true_iff in H as [Hc H]. cbn [append].
    unfold notOpen in Hc. apply negb_true_iff in Hc.
    rewrite (replaceAll_skip _ _ _ _ _ (at_open c _ Hc)), (IH H).
    now destruct (replaceAll matchAt callback st rest).
Qed.

Hypothesis consumes : forall s g rest,
  matchAt s = Some (g, rest) -> String.length rest < String.length s.

(** No match runs over an opening brace. *)
Hypothesis stops_at_open : forall c s x,
  matchAt (String c s ++ String "{" x) = extendWith x (matchAt (String c s)).

Lemma replaceAll_open (pre x : string) (st : S) :
  replaceAll matchAt callback st (pre ++ String "{" x)
  = (let (st1, out1) := replaceAll matchAt callback st pre in
     let (st2, out2) := replaceAll matchAt callback st1 (String "{" x) in
     (st2, out1 ++ out2)).
Proof.
  remember (String.length pre) as n eqn:Hn.
  assert (Hle : String.length pre <= n) by lia. clear Hn.
  revert pre st Hle. induction n as [|n IH]; intros pre st Hle.
  - destruct pre; [|simpl in Hle; lia]. cbn [append].
    rewrite replaceAll_nil.
    now destruct (replaceAll matchAt callback st (String "{" x)).
  - destruct pre as [|c s].
    + cbn [append]. rewrite replaceAll_nil.
      now destruct (replaceAll matchAt callback st (String "{" x)).
    + pose proof (stops_at_open c s x) as E.
      destruct (matchAt (String c s)) as [[m r]|] eqn:Em; cbn [extendWith] in E.
      * rewrite (replaceAll_match _ _ consumes _ _ _ _ E),
                (replaceAll_match _ _ consumes _ _ _ _ Em).
        destruct (callback st m) as [st1 h].
        apply consumes in Em. simpl in Em, Hle.
        rewrite (IH r st1) by lia.
        destruct (replaceAll matchAt callback st1 r) as [a o1].
        destruct (replaceAll matchAt callback a (String "{" x)) as [b o2].
        now rewrite StrFacts.append_assoc.
      * cbn [append] in *.
        rewrite (replaceAll_skip _ _ _ _ _ E), (replaceAll_skip _ _ _ _ _ Em).
        simpl in Hle. rewrite (IH s st) by lia.
        destruct (replaceAll matchAt callback st s) as [a o1].
        now destruct (replaceAll matchAt callback a (String "{" x)) as [b o2].
Qed.
End ReplaceMore.

(** ** The scans as a whole *)

Lemma extended_at_open (c : ascii) (s : string) :
  Ascii.eqb c "{" = false -> extendedFormatterRegex (String c s) = None.
Proof. intros H. unfold extendedFormatterRegex. now rewrite H. Qed.

Lemma llm_at_open (c : ascii) (s : string) :
  Ascii.eqb c "{" = false -> llmPromptRegex (String c s) = None.
Proof. intros H. unfold llmPromptRegex. now rewrite H. Qed.

Lemma api_at_open (c : ascii) (s : string) :
  Ascii.eqb c "{" = false -> apiVarRegex (String c s) = None.
Proof. intros H. unfold apiVarRegex. now rewrite H. Qed.

(** X1: a text without an opening brace is copied as it is by the scans of
    the Reformat designer, the LLM designer and the API designer, and leaves
    their state unchanged. *)
Theorem text_without_open_brace_unchanged (text : string) :
  Str.forallb notOpen text = true ->
  (forall state, extendedScan state text = (state, text))
  /\ (forall variables, llmScan variables text = (variables, text))
  /\ (forall vars, replaceAll apiVarRegex apiAdd vars text = (vars, text)).
Proof.
  intros H. repeat split; intros st.
  - unfold extendedScan. rewrite <- (append_nil_r text) at 1.
    rewrite (replaceAll_copy _ _ extended_at_open _ _ _ H), replaceAll_nil.
    now rewrite append_nil_r.
  - unfold llmScan. rewrite <- (append_nil_r text) at 1.
    rewrite (replaceAll_copy _ _ llm_at_open _ _ _ H), replaceAll_nil.
    now rewrite append_nil_r.
  - rewrite <- (append_nil_r text) at 1.
    rewrite (replaceAll_copy _ _ api_at_open _ _ _ H), replaceAll_nil.
    now rewrite append_nil_r.
Qed.

Lemma text_without_open_brace_unchanged_witness :
  extendedScan (["a"], ["b"]) "no braces} here: 100%"
  = ((["a"], ["b"]), "no braces} here: 100%").
Proof.
  apply (text_without_open_brace_unchanged "no braces} here: 100%").
  reflexivity.
Defined.

Lemma set_add_inv (s : StrSet) (x y : string) :
  In y (set_add s x) -> In y s \/ y = x.
Proof.
  unfold set_add. destruct (set_has s x); [auto|].
  intros H. apply in_app_iff in H as [H|[H|[]]]; auto.
Qed.

Lemma condAdd_inv (set1 set2 : StrSet) (x y : string) :
  In y (condAdd set1 set2 x) -> In y set1 \/ (y = x /\ set_has set2 x = false).
Proof.
  unfold condAdd. destruct (set_has set2 x); [auto|].
  intros H. apply set_add_inv in H as [H|H]; auto.
Qed.

Lemma Forall_set_add (P : string -> Prop) (s : StrSet) (x : string) :
  Forall P s -> P x -> Forall P (set_add s x).
Proof.
  intros Hs Hx. unfold set_add. destruct (set_has s x); [exact Hs|].
  apply Forall_app. split; [exact Hs|now constructor].
Qed.

Lemma Forall_condAdd (P : string -> Prop) (set1 set2 : StrSet) (x : string) :
  Forall P set1 -> P x -> Forall P (condAdd set1 set2 x).
Proof.
  intros Hs Hx. unfold condAdd. destruct (set_has set2 x); [exact Hs|].
  now apply Forall_set_add.
Qed.

(** The state the reducer returns, branch by branch: the inputs come from
    the old ones by [condAdd] against the old internal names. *)
Lemma reduce_state (inputs internal : StrSet) (m : ExtMatch) :
  let st' := fst (extendedFormatterReduceFunc (inputs, internal) m) in
  (exists v, fst st' = condAdd inputs internal (takeWhile isWordChar v)
             /\ (snd st' = internal \/ exists b, snd st' = set_add internal b
                 \/ snd st' = set_add (set_add internal "item") "index"))
  \/ (exists p1 b,
        fst st' = fst (replaceAll identifierRegex (exprIdentifier internal) inputs p1)
        /\ snd st' = set_add internal b)
  \/ st' = (inputs, internal)
  \/ exists b, st' = (inputs, set_add internal b).
Proof.
  unfold extendedFormatterReduceFunc, parseFormatExpression.
  destruct (strictEq (exprType m) "parse_json" || strictEq (exprType m) "let"
            || strictEq (exprType m) "int" || strictEq (exprType m) "float").
  { left. eexists. cbn [fst snd]. split; [reflexivity|]. right.
    eexists. left. reflexivity. }
  destruct (strictEq (exprType m) "join").
  { left. eexists. cbn [fst snd]. split; [reflexivity|]. right.
    exists EmptyString. now right. }
  destruct (strictEq (exprType m) "expr").
  { destruct (exprParam1 m) as [p1|].
    - right. left. exists p1. eexists.
      destruct (replaceAll identifierRegex (exprIdentifier internal) inputs p1).
      cbn [fst snd]. split; reflexivity.
    - right. right. right. eexists. reflexivity. }
  destruct (negb _).
  { left. eexists. cbn [fst snd]. split; [reflexivity|]. now left. }
  right. right. left. reflexivity.
Qed.

Lemma reduce_internal_mono (y : string) (st : ExtendedFormatterState) (m : ExtMatch) :
  In y (snd st) -> In y (snd (fst (extendedFormatterReduceFunc st m))).
Proof.
  destruct st as [inputs internal]. cbn [snd]. intros H.
  destruct (reduce_state inputs internal m)
    as [(v & _ & [E|(b & [E|E])])|[(p1 & b & _ & E)|[E|(b & E)]]];
    rewrite E; cbn [snd]; auto using set_add_mono.
Qed.

(** X3: the scan of a Reformat formatter text only adds names: every input
    and every internal name of the state it starts from is in the state it
    ends in. *)
Theorem scan_only_adds (state : ExtendedFormatterState) (text : string) :
  incl (fst state) (fst (fst (extendedScan state text)))
  /\ incl (snd state) (snd (fst (extendedScan state text))).
Proof.
  split; intros y Hy.
  - now apply extendedScan_inputs_mono.
  - unfold extendedScan, replaceAll.
    apply (replaceFuel_invariant extendedFormatterRegex extendedFormatterReduceFunc
             (fun st => In y (snd st))); [|exact Hy].
    intros st' g. apply reduce_internal_mono.
Qed.

(** An internal name that is no input stays so through the identifiers of an
    [expr] argument. *)
Lemma expr_identifiers_shielded (y : string) (internal inputs : StrSet) (p1 : string) :
  In y internal -> ~ In y inputs ->
  ~ In y (fst (replaceAll identifierRegex (exprIdentifier internal) inputs p1)).
Proof.
  intros Hint Hin. unfold replaceAll.
  apply (replaceFuel_invariant identifierRegex (exprIdentifier internal)
           (fun ins => ~ In y ins)); [|exact Hin].
  intros ins g Hins Hy. cbn [exprIdentifier fst] in Hy.
  apply condAdd_inv in Hy as [Hy|[-> Hy]]; [contradiction|].
  apply set_has_In in Hint. congruence.
Qed.

Lemma reduce_shielded (y : string) (st : ExtendedFormatterState) (m : ExtMatch) :
  In y (snd st) /\ ~ In y (fst st) ->
  In y (snd (fst (extendedFormatterReduceFunc st m)))
  /\ ~ In y (fst (fst (extendedFormatterReduceFunc st m))).
Proof.
  intros [Hint Hin]. split; [now apply reduce_internal_mono|].
  destruct st as [inputs internal]. cbn [fst snd] in *.
  destruct (reduce_state inputs internal m)
    as [(v & E & _)|[(p1 & b & E & _)|[E|(b & E)]]].
  - rewrite E. intros Hy. apply condAdd_inv in Hy as [Hy|[-> Hy]]; [contradiction|].
    apply set_has_In in Hint. congruence.
  - rewrite E. now apply expr_identifiers_shielded.
  - now rewrite E.
  - now rewrite E.
Qed.

(** X4: a name that is internal and no input when the scan reaches some
    place of a Reformat formatter text is no input at the end of the text,
    whatever follows: a bound name is never demanded afterwards. *)
Theorem internal_name_never_becomes_input (y : string)
    (state : ExtendedFormatterState) (text : string) :
  In y (snd state) -> ~ In y (fst state) ->
  ~ In y (fst (fst (extendedScan state text))).
Proof.
  intros Hint Hin. unfold extendedScan, replaceAll.
  apply (replaceFuel_invariant extendedFormatterRegex extendedFormatterReduceFunc
           (fun st => In y (snd st) /\ ~ In y (fst st))); [|now split].
  intros st g. apply reduce_shielded.
Qed.

Lemma internal_name_never_becomes_input_witness :
  ~ In "b" (fst (fst (extendedScan (["a"], ["b"])
                        "{b.title()} {let:b:c}{expr:b+a*2:d} {int:b}"))).
Proof.
  apply (internal_name_never_becomes_input "b" (["a"], ["b"])).
  - simpl. auto.
  - simpl. intuition discriminate.
Defined.

Lemma isWordStart_isWordChar (c : ascii) :
  isWordStart c = true -> isWordChar c = true.
Proof.
  unfold isWordStart, isWordChar.
  destruct (inRange 65 90 c), (inRange 97 122 c), (inRange 48 57 c); auto.
Qed.

Lemma identifierRegex_word (s g rest : string) :
  identifierRegex s = Some (g, rest) -> Str.forallb isWordChar g = true.
Proof.
  unfold identifierRegex. destruct s as [|c s]; [discriminate|].
  destruct (isWordStart c) eqn:E; [|discriminate].
  intros H; injection H as <- _. simpl.
  now rewrite (isWordStart_isWordChar c E), takeWhile_forallb.
Qed.

Lemma reduce_words (st : ExtendedFormatterState) (m : ExtMatch) :
  Forall (fun k => Str.forallb isWordChar k = true) (fst st) ->
  Forall (fun k => Str.forallb isWordChar k = true)
    (fst (fst (extendedFormatterReduceFunc st m))).
Proof.
  destruct st as [inputs internal]. cbn [fst]. intros H.
  destruct (reduce_state inputs internal m)
    as [(v & E & _)|[(p1 & b & E & _)|[E|(b & E)]]]; rewrite E; cbn [fst].
  - apply Forall_condAdd; [exact H|apply takeWhile_forallb].
  - unfold replaceAll.
    apply (replaceFuel_invariant_match identifierRegex (exprIdentifier internal)
             (Forall (fun k => Str.forallb isWordChar k = true))); [|exact H].
    intros ins s g rest Hg Hins. cbn [exprIdentifier fst].
    apply Forall_condAdd; [exact Hins|exact (identifierRegex_word _ _ _ Hg)].
  - exact H.
  - exact H.
Qed.

(** X5: every input key the scan of a Reformat formatter text computes
    consists of letters, digits and underscores only (it may be empty). *)
Theorem reformat_input_keys_are_words (template : string) :
  Forall (fun k => Str.forallb isWordChar k = true) (reformatInputKeys template).
Proof.
  rewrite reformatInputKeys_scan. unfold extendedScan, replaceAll.
  apply (replaceFuel_invariant extendedFormatterRegex extendedFormatterReduceFunc
           (fun st => Forall (fun k => Str.forallb isWordChar k = true) (fst st)));
    [|constructor].
  intros st g. apply reduce_words.
Qed.

Lemma strictEq_iff (x : option string) (lit : string) :
  strictEq x lit = true <-> x = Some lit.
Proof.
  destruct x as [s|]; simpl; [|split; discriminate].
  rewrite String.eqb_eq. split; congruence.
Qed.

(** X6: the reducer renders the error token exactly when the first group is
    none of the six directive words and the fifth group is undefined or
    empty; no match of the pattern is such. *)
Theorem error_token_only_without_groups (state : ExtendedFormatterState)
    (m : ExtMatch) :
  (snd (extendedFormatterReduceFunc state m) = errorToken
   <-> (forall d, In d directives -> exprType m <> Some d)
       /\ orElse (stdExpr m) EmptyString = EmptyString)
  /\ forall s, match extendedFormatterRegex s with
               | Some (m', _) =>
                   snd (extendedFormatterReduceFunc state m') <> errorToken
               | None => True
               end.
Proof.
  split.
  - destruct state as [inputs internal].
    unfold extendedFormatterReduceFunc, parseFormatExpression.
    destruct (strictEq (exprType m) "parse_json") eqn:E1;
      [|destruct (strictEq (exprType m) "let") eqn:E2;
        [|destruct (strictEq (exprType m) "int") eqn:E3;
          [|destruct (strictEq (exprType m) "float") eqn:E4;
            [|destruct (strictEq (exprType m) "join") eqn:E5;
              [|destruct (strictEq (exprType m) "expr") eqn:E6]]]]];
      cbn [orb snd].
    1-5: split; [intros H; now apply spanExpr_not_error in H|];
         intros [H _]; exfalso;
         match goal with
         | E : strictEq _ ?d = true |- _ =>
             apply strictEq_iff in E; apply (H d); [simpl; tauto|exact E]
         end.
    + split.
      * destruct (exprParam1 m);
          [destruct (replaceAll _ _ _ _)|]; cbn [snd];
          intros H; now apply spanExpr_not_error in H.
      * intros [H _]. exfalso. apply strictEq_iff in E6.
        apply (H "expr"); [simpl; tauto|exact E6].
    + destruct (Str.isEmpty (orElse (stdExpr m) EmptyString)) eqn:E7; cbn [negb snd].
      * split; [intros _|reflexivity]. split.
        -- intros d Hd Hm. unfold directives in Hd. simpl in Hd.
           assert (strictEq (exprType m) d = true) as Hs by now apply strictEq_iff.
           destruct Hd as [<-|[<-|[<-|[<-|[<-|[<-|[]]]]]]]; congruence.
        -- now destruct (orElse (stdExpr m) EmptyString).
      * split; [intros H; now apply spanExpr_not_error in H|].
        intros [_ H]. rewrite H in E7. discriminate.
  - intros s. destruct (extendedFormatterRegex s) as [[m' rest]|] eqn:E; [|exact I].
    exact (match_never_error _ _ _ _ E).
Qed.

(** X7: a [parse_json], [let], [int], [float] or [expr] directive with a
    second argument binds it for the rest of the text: if the name is no
    input once the directive is reduced, it is no input key of the whole
    text, however often the text refers to it afterwards. *)
Theorem binder_shields_later_references (d x out pre post : string) :
  In d ["parse_json"; "let"; "int"; "float"; "expr"] ->
  x <> EmptyString -> Str.forallb notColonBrace x = true ->
  out <> EmptyString -> Str.forallb notColonBrace out = true ->
  ~ In out (fst (fst (extendedFormatterReduceFunc
                        (fst (extendedScan ([], []) pre)) (directive2 d x out)))) ->
  ~ In out (reformatInputKeys
              (pre ++ "{" ++ d ++ ":" ++ x ++ ":" ++ out ++ "}" ++ post)).
Proof.
  intros Hd Hx Hxc Ho Hoc Hnot.
  assert (Hdir : In d directives) by (simpl in *; tauto).
  rewrite reformatInputKeys_scan.
  rewrite (extendedScan_app_match _ _ _ _ _
             (regex_directive2 d x out post Hdir Hx Hxc Ho Hoc)).
  destruct (extendedScan ([], []) pre) as [[inputs internal] out1].
  cbn [fst] in Hnot.
  assert (Hbound : In out (snd (fst (extendedFormatterReduceFunc
                                       (inputs, internal) (directive2 d x out))))).
  { simpl in Hd. destruct Hd as [<-|[<-|[<-|[<-|[<-|[]]]]]].
    1-4: rewrite (reduce_binder _ _ (directive2 _ x out) _ eq_refl)
           by (simpl; tauto);
         destruct (parseFormatExpression _); cbn [fst snd exprParam2 directive2];
         destruct out; [congruence|apply set_add_In].
    rewrite (reduce_expr _ _ (directive2 "expr" x out) x eq_refl eq_refl).
    destruct (replaceAll _ _ _ _). cbn [fst snd exprParam2 directive2].
    destruct out; [congruence|apply set_add_In]. }
  destruct (extendedFormatterReduceFunc (inputs, internal) (directive2 d x out))
    as [st2 h]. cbn [fst snd] in *.
  assert (H : In out (snd (fst (extendedScan st2 post)))
              /\ ~ In out (fst (fst (extendedScan st2 post)))).
  { unfold extendedScan, replaceAll.
    apply (replaceFuel_invariant extendedFormatterRegex extendedFormatterReduceFunc
             (fun st => In out (snd st) /\ ~ In out (fst st))); [|now split].
    intros st g. apply reduce_shielded. }
  destruct H as [_ H]. now destruct (extendedScan st2 post).
Qed.

Lemma binder_shields_later_references_witness :
  ~ In "b" (reformatInputKeys
              ("{a}: " ++ "{" ++ "let" ++ ":" ++ "a.strip()" ++ ":" ++ "b" ++ "}"
               ++ "{b} and {expr:b*2:c}{b.x}")).
Proof.
  apply (binder_shields_later_references "let" "a.strip()" "b" "{a}: "
           "{b} and {expr:b*2:c}{b.x}");
    try solve [discriminate | reflexivity | simpl; tauto].
  vm_compute. intuition discriminate.
Defined.

Lemma llm_word_bracket (w rest : string) :
  Str.forallb isWordChar w = true ->
  llmPromptRegex ("{" ++ w ++ "}" ++ rest) = Some (("{" ++ w ++ "}", w), rest).
Proof.
  intros Hw. unfold llmPromptRegex. cbn [append]. rewrite Ascii.eqb_refl.
  assert (Hall : Str.forallb lazyDot w = true).
  { apply (forallb_weaken isWordChar); [|exact Hw].
    intros c Hc. unfold lazyDot, isLineTerminator.
    unfold isWordChar, inRange in Hc.
    destruct (Ascii.eqb_spec c "}") as [->|]; [discriminate|].
    destruct (Ascii.eqb_spec c (ascii_of_nat 10)) as [->|]; [discriminate|].
    destruct (Ascii.eqb_spec c (ascii_of_nat 13)) as [->|]; [discriminate|].
    reflexivity. }
  rewrite takeWhile_app, dropWhile_app by auto.
  now rewrite Ascii.eqb_refl.
Qed.

Lemma condAdd_nil (set1 : StrSet) (x : string) : condAdd set1 [] x = set_add set1 x.
Proof. reflexivity. Qed.

(** X2: on a text of plain references to words, separated by text without
    an opening brace, the Reformat designer and the LLM designer compute the
    same keys: the distinct words in the order of their first occurrence. *)
Theorem plain_references_first_occurrence (pieces : list (string * string))
    (last : string) :
  Forall (fun p => Str.forallb notOpen (fst p) = true
                   /\ Str.forallb isWordChar (snd p) = true) pieces ->
  Str.forallb notOpen last = true ->
  reformatInputKeys (plainTemplate pieces last)
  = fold_left set_add (map snd pieces) []
  /\ llmInputKeys (plainTemplate pieces last)
     = fold_left set_add (map snd pieces) [].
Proof.
  intros Hp Hlast. split.
  - rewrite reformatInputKeys_scan.
    assert (H : forall inputs : StrSet,
               fst (fst (extendedScan (@pair StrSet StrSet inputs [])
                           (plainTemplate pieces last)))
               = fold_left set_add (map snd pieces) inputs); [|apply H].
    induction Hp as [|[text w] pieces [Ht Hw] _ IH]; intros inputs.
    + cbn [plainTemplate map fold_left]. unfold extendedScan.
      rewrite <- (append_nil_r last).
      rewrite (replaceAll_copy _ _ extended_at_open _ _ _ Hlast), replaceAll_nil.
      reflexivity.
    + cbn [plainTemplate map fold_left fst snd] in *. unfold extendedScan.
      rewrite (replaceAll_copy _ _ extended_at_open _ _ _ Ht).
      fold (extendedScan (@pair StrSet StrSet inputs [])
              ("{" ++ w ++ "}" ++ plainTemplate pieces last)).
      rewrite (extendedScan_match _ _ _ _ (word_bracket w _ Hw)), reduce_bracket.
      rewrite takeWhile_all by exact Hw. rewrite condAdd_nil.
      specialize (IH (set_add inputs w)).
      destruct (extendedScan (@pair StrSet StrSet (set_add inputs w) [])
                  (plainTemplate pieces last)) as [st2 out]. exact IH.
  - unfold llmInputKeys, FormatReducer_reduce. cbn [llmFormatReducer fr_regex
      fr_reduceFunc fr_initialState fr_finalize].
    assert (H : forall variables,
               fst (llmScan variables (plainTemplate pieces last))
               = fold_left set_add (map snd pieces) variables).
    { induction Hp as [|[text w] pieces [Ht Hw] _ IH]; intros variables.
      - cbn [plainTemplate map fold_left]. unfold llmScan.
        rewrite <- (append_nil_r last).
        rewrite (replaceAll_copy _ _ llm_at_open _ _ _ Hlast), replaceAll_nil.
        reflexivity.
      - cbn [plainTemplate map fold_left fst snd] in *. unfold llmScan.
        rewrite (replaceAll_copy _ _ llm_at_open _ _ _ Ht).
        fold (llmScan variables ("{" ++ w ++ "}" ++ plainTemplate pieces last)).
        rewrite (llmScan_match _ _ _ _ (llm_word_bracket w _ Hw)).
        cbn [llmReduceFunc snd].
        specialize (IH (set_add variables w)).
        destruct (llmScan (set_add variables w) (plainTemplate pieces last))
          as [st2 out]. exact IH. }
    specialize (H []). unfold llmScan in H.
    destruct (replaceAll llmPromptRegex llmReduceFunc [] (plainTemplate pieces last)).
    exact H.
Qed.

Lemma plain_references_first_occurrence_witness :
  reformatInputKeys (plainTemplate [("Dear ", "name"); (", your ", "item");
                                    (" is ready, ", "name")] "!")
  = ["name"; "item"].
Proof.
  apply (plain_references_first_occurrence
           [("Dear ", "name"); (", your ", "item"); (" is ready, ", "name")] "!").
  - repeat constructor.
  - reflexivity.
Defined.

(** ** The variables of an API spec *)

Lemma apiVarRegex_word (s v rest : string) :
  apiVarRegex s = Some (v, rest) ->
  v <> EmptyString /\ Str.forallb isWordChar v = true.
Proof.
  unfold apiVarRegex. destruct s as [|c s]; [discriminate|].
  destruct (Ascii.eqb c "{"); [|discriminate].
  destruct (dropWhile isWordChar s) as [|c2 r]; [discriminate|].
  destruct (Ascii.eqb c2 "}"); [|discriminate]. cbn [andb].
  destruct (Str.isEmpty (takeWhile isWordChar s)) eqn:E; [discriminate|].
  intros H; injection H as <- _. split; [|apply takeWhile_forallb].
  intros Hv. rewrite Hv in E. discriminate.
Qed.

Lemma api_scan_words (P := fun k => k <> EmptyString /\ Str.forallb isWordChar k = true)
    (vars : StrSet) (text : string) :
  Forall P vars -> Forall P (fst (replaceAll apiVarRegex apiAdd vars text)).
Proof.
  intros H. unfold replaceAll.
  apply (replaceFuel_invariant_match apiVarRegex apiAdd (Forall P)); [|exact H].
  intros st s g rest Hg Hst. cbn [apiAdd fst].
  apply Forall_set_add; [exact Hst|exact (apiVarRegex_word _ _ _ Hg)].
Qed.

(** X8: every input key the update effect of the API designer computes from
    the url, the method, the headers text and the body is a non-empty word
    of letters, digits and underscores. *)
Theorem api_input_keys_are_nonempty_words (JSON_parse : string -> Result Headers)
    (spec : APISpec) (st : APIDesignerState) :
  Forall (fun k => k <> EmptyString /\ Str.forallb isWordChar k = true)
    (api_input_keys (snd (apiEmitted JSON_parse spec st))).
Proof.
  unfold apiEmitted. destruct (tryParseHeaders JSON_parse spec st (st_headers st)).
  cbn [snd api_input_keys]. unfold Array_from, apiVars.
  assert (H3 : Forall (fun k => k <> EmptyString /\ Str.forallb isWordChar k = true)
                 (fst (replaceAll apiVarRegex apiAdd
                         (fst (replaceAll apiVarRegex apiAdd
                                 (fst (replaceAll apiVarRegex apiAdd [] (st_url st)))
                                 (st_method st)))
                         (st_headers st)))).
  { repeat apply api_scan_words. constructor. }
  destruct (st_body st) as [b|]; [|exact H3].
  destruct (Str.isEmpty b); [exact H3|now apply api_scan_words].
Qed.

Lemma apiVarRegex_stops_at_open (c : ascii) (s x : string) :
  apiVarRegex (String c s ++ String "{" x) = extendWith x (apiVarRegex (String c s)).
Proof.
  unfold apiVarRegex. cbn [append].
  destruct (Ascii.eqb c "{"); [|reflexivity].
  rewrite takeWhile_app_stop, dropWhile_app_stop by reflexivity.
  destruct (dropWhile isWordChar s) as [|c2 r]; [reflexivity|]. cbn [append].
  now destruct (Ascii.eqb c2 "}" && negb (Str.isEmpty (takeWhile isWordChar s))).
Qed.

Lemma api_scan_mono (y : string) (vars : StrSet) (text : string) :
  In y vars -> In y (fst (replaceAll apiVarRegex apiAdd vars text)).
Proof.
  intros H. unfold replaceAll.
  apply (replaceFuel_invariant apiVarRegex apiAdd (In y)); [|exact H].
  intros st g Hst. cbn [apiAdd fst]. now apply set_add_mono.
Qed.

Lemma api_scan_reference (vars : StrSet) (pre w post : string) :
  w <> EmptyString -> Str.forallb isWordChar w = true ->
  In w (fst (replaceAll apiVarRegex apiAdd vars (pre ++ "{" ++ w ++ "}" ++ post))).
Proof.
  intros Hne Hw.
  assert (E : apiVarRegex ("{" ++ w ++ "}" ++ post) = Some (w, post)).
  { unfold apiVarRegex. cbn [append]. rewrite Ascii.eqb_refl.
    rewrite takeWhile_app, dropWhile_app by auto.
    rewrite Ascii.eqb_refl. now rewrite isEmpty_false. }
  cbn [append] in *.
  rewrite (replaceAll_open apiVarRegex apiAdd apiVarRegex_consumes
             apiVarRegex_stops_at_open).
  destruct (replaceAll apiVarRegex apiAdd vars pre) as [v1 o1].
  rewrite (replaceAll_match _ _ apiVarRegex_consumes _ _ _ _ E).
  cbn [apiAdd].
  pose proof (api_scan_mono w (set_add v1 w) post (set_add_In v1 w)) as H.
  now destruct (replaceAll apiVarRegex apiAdd (set_add v1 w) post).
Qed.

(** X9: a reference [{w}] to a non-empty word anywhere in the url, the
    method, the headers text or the body of the API designer makes [w] an
    input key of the spec its update effect sends. *)
Theorem api_reference_is_input_key (JSON_parse : string -> Result Headers)
    (spec : APISpec) (st : APIDesignerState) (pre w post : string) :
  w <> EmptyString -> Str.forallb isWordChar w = true ->
  let text := pre ++ "{" ++ w ++ "}" ++ post in
  st_url st = text \/ st_method st = text \/ st_headers st = text
  \/ st_body st = Some text ->
  In w (api_input_keys (snd (apiEmitted JSON_parse spec st))).
Proof.
  intros Hne Hw text H.
  unfold apiEmitted. destruct (tryParseHeaders JSON_parse spec st (st_headers st)).
  cbn [snd api_input_keys]. unfold Array_from, apiVars.
  assert (Hbody : forall vars, In w vars ->
            In w match st_body st with
                 | Some b => if Str.isEmpty b then vars
                             else fst (replaceAll apiVarRegex apiAdd vars b)
                 | None => vars
                 end).
  { intros vars Hv. destruct (st_body st) as [b|]; [|exact Hv].
    destruct (Str.isEmpty b); [exact Hv|now apply api_scan_mono]. }
  destruct H as [H|[H|[H|H]]].
  - apply Hbody. rewrite H. do 2 apply api_scan_mono.
    now apply api_scan_reference.
  - apply Hbody. rewrite H. apply api_scan_mono. now apply api_scan_reference.
  - apply Hbody. rewrite H. now apply api_scan_reference.
  - rewrite H. assert (Str.isEmpty text = false) as ->.
    { unfold text. destruct pre; reflexivity. }
    now apply api_scan_reference.
Qed.

Lemma api_reference_is_input_key_witness :
  let spec := mkAPISpec 1 [] EmptyString "GET" [] None "out" in
  let st := mkAPIDesignerState "http://host/{path}" "GET"
              ("{ Accept: " ++ "{" ++ "kind" ++ "}" ++ " }") false None "out" in
  In "kind" (api_input_keys (snd (apiEmitted parseEmptyObject spec st))).
Proof.
  intros spec st.
  apply (api_reference_is_input_key parseEmptyObject spec st "{ Accept: " "kind" " }").
  - discriminate.
  - reflexivity.
  - right. right. left. reflexivity.
Defined.

(** X10: when the update effect of the API designer returns, the error flag
    is raised exactly if the headers text did not parse, whatever the flag
    was before; the other cells of the designer are as before, and the spec
    sent has the id of the spec the designer holds and, if the text parsed,
    the parsed headers. *)
Theorem headers_error_flag_tracks_parse (JSON_parse : string -> Result Headers)
    (spec : APISpec) (T : Type) (updateChainSpec : ChainSpec -> Result T)
    (st st' : APIDesignerState) (t : T) :
  apiUpdateEffect JSON_parse spec updateChainSpec st = Ok (t, st') ->
  (st_headersError st' = true <-> exists e, JSON_parse (st_headers st) = Throw e)
  /\ st' = setHeadersError st (st_headersError st')
  /\ exists emitted,
       updateChainSpec (api_spec emitted) = Ok t
       /\ api_chain_id emitted = api_chain_id spec
       /\ forall h, JSON_parse (st_headers st) = Ok h -> headers emitted = h.
Proof.
  unfold apiUpdateEffect, apiEmitted, tryParseHeaders.
  destruct (JSON_parse (st_headers st)) as [h|e] eqn:Hp.
  - destruct (updateChainSpec _) as [t0|] eqn:Hu; [|discriminate].
    intros H; injection H as <- <-. cbn. repeat split.
    + discriminate.
    + intros (e & He). discriminate.
    + eexists. split; [exact Hu|]. split; [reflexivity|].
      intros h' Hh. now injection Hh.
  - destruct (updateChainSpec _) as [t0|] eqn:Hu; [|discriminate].
    intros H; injection H as <- <-. cbn. repeat split.
    + eauto.
    + eexists. split; [exact Hu|]. split; [reflexivity|]. discriminate.
Qed.

Lemma headers_error_flag_tracks_parse_witness :
  let spec := mkAPISpec 1 [] EmptyString "GET" [("Accept", "text/plain")] None "out" in
  let st := mkAPIDesignerState "http://host" "GET" "{}" true None "out" in
  exists t st', apiUpdateEffect parseEmptyObject spec Ok st = Ok (t, st')
                /\ st_headersError st' = false.
Proof.
  intros spec st. eexists. eexists. split; [reflexivity|].
  destruct (headers_error_flag_tracks_parse parseEmptyObject spec _ Ok st _ _ eq_refl)
    as [[Hflag _] _].
  reflexivity.
Defined.

(** ** Sequences of calls of the context *)

Section SessionRuns.
Variable insertGenerated :
  option ChainSpec -> nat -> string -> nat -> nat -> Result ChainSpec.
Variable update : option ChainSpec -> ChainSpec -> SpecControl.UpdateResult.

Lemma insert_counter (s s' : Session) (type : string) (chainId index : nat) :
  insertChainSpec insertGenerated s type chainId index = Ok s' ->
  nextChainId s' = nextChainId s + 1.
Proof.
  unfold insertChainSpec. destruct (insertGenerated _ _ _ _ _); [|discriminate].
  intros H; injection H as <-. reflexivity.
Qed.

Lemma edit_frame (s : Session) (c : SessionCall) :
  isEdit c = true ->
  chainSpec (stateAfter s (call insertGenerated update s c)) = chainSpec s
  /\ nextChainId (stateAfter s (call insertGenerated update s c)) = nextChainId s.
Proof.
  destruct c; try discriminate; intros _; cbn; auto.
  unfold updateDirtyChainSpec.
  destruct (negb (SpecControl.found (update (dirtyChainSpec s) spec))); cbn; auto.
Qed.

Lemma setChainSpec_counter (s : Session) (spec : ChainSpec) :
  nextChainId (setChains s spec) = nextChainId s.
Proof. reflexivity. Qed.
End SessionRuns.

(** X11: whatever the insert and update helpers do, a sequence of calls
    other than [setChainSpec] and [insertChainSpec] (edits of nodes, name,
    revision, interaction flag), failing or not, leaves the committed tree
    and the id counter as they were. *)
Theorem edits_leave_committed_tree
    (insertGenerated : option ChainSpec -> nat -> string -> nat -> nat -> Result ChainSpec)
    (update : option ChainSpec -> ChainSpec -> SpecControl.UpdateResult)
    (s : Session) (cs : list SessionCall) :
  List.forallb isEdit cs = true ->
  chainSpec (runCalls insertGenerated update s cs) = chainSpec s
  /\ nextChainId (runCalls insertGenerated update s cs) = nextChainId s.
Proof.
  revert s. induction cs as [|c cs IH]; intros s H; [auto|].
  simpl in H. apply andb_true_iff in H as [Hc H]. cbn [runCalls].
  destruct (IH (stateAfter s (call insertGenerated update s c)) H) as [-> ->].
  now apply edit_frame.
Qed.

Lemma edits_leave_committed_tree_witness :
  let root := sequential_spec 0
                [llm_spec (mkLLMSpec 1 [] EmptyString EmptyString EmptyString)] in
  let s := mkSession (Some root) "chain" (Some root) 2 None false in
  chainSpec
    (runCalls SpecControl.insertChainSpec SpecControl.updateChainSpec s
       [CallUpdateChainSpec (llm_spec (mkLLMSpec 1 ["x"] "{x}" "llm" "text"));
        CallSetChainName "renamed";
        CallUpdateChainSpec (sequential_spec 9 []);
        CallSetIsInteracting true])
  = Some root.
Proof.
  intros root s.
  apply (edits_leave_committed_tree SpecControl.insertChainSpec
           SpecControl.updateChainSpec s).
  reflexivity.
Defined.

(** X12: whatever the helpers do and whatever calls are made in between,
    the ids the session hands to the insert helper in the calls that return
    a tree are consecutive, starting at the counter, and the counter ends
    advanced by their number: a call that throws consumes no id, and
    [setChainSpec] never moves the counter, whatever ids the tree it is
    given contains. *)
Theorem allocated_ids_consecutive
    (insertGenerated : option ChainSpec -> nat -> string -> nat -> nat -> Result ChainSpec)
    (update : option ChainSpec -> ChainSpec -> SpecControl.UpdateResult)
    (s : Session) (cs : list SessionCall) :
  let ids := allocated insertGenerated update s cs in
  ids = seq (nextChainId s) (List.length ids)
  /\ nextChainId (runCalls insertGenerated update s cs)
     = nextChainId s + List.length ids.
Proof.
  revert s. induction cs as [|c cs IH]; intros s; cbn zeta.
  - split; [reflexivity|]. cbn. lia.
  - cbn [allocated runCalls].
    assert (Hstep : forall s1,
              nextChainId s1 = nextChainId s ->
              allocated insertGenerated update s1 cs
              = seq (nextChainId s)
                  (List.length (allocated insertGenerated update s1 cs))
              /\ nextChainId (runCalls insertGenerated update s1 cs)
                 = nextChainId s
                   + List.length (allocated insertGenerated update s1 cs)).
    { intros s1 Hn. specialize (IH s1). cbn zeta in IH. now rewrite Hn in IH. }
    destruct c as [spec|name|r|type chainId index|spec|b].
    + apply Hstep. reflexivity.
    + apply Hstep. reflexivity.
    + apply Hstep. reflexivity.
    + cbn [call].
      destruct (insertChainSpec insertGenerated s type chainId index)
        as [s'|e] eqn:E.
      * specialize (IH s'). cbn zeta in IH. destruct IH as [IH1 IH2].
        apply insert_counter in E. cbn [stateAfter List.length seq].
        rewrite IH2, E. split; [|lia].
        rewrite IH1 at 1. rewrite E. f_equal. f_equal. lia.
      * cbn [stateAfter]. apply Hstep. reflexivity.
    + assert (Hn : nextChainId (stateAfter s (call insertGenerated update s
                                                (CallUpdateChainSpec spec)))
                   = nextChainId s) by (now apply edit_frame).
      destruct (call insertGenerated update s (CallUpdateChainSpec spec));
        now apply Hstep.
    + apply Hstep. reflexivity.
Qed.

(** ** The rows of the Case designer and the Reformat designer *)

Lemma replaceAt_split {A : Type} (l1 l2 : list A) (old x : A) :
  replaceAt (List.length l1) x (l1 ++ old :: l2) = (l1 ++ x :: l2)%list.
Proof.
  unfold replaceAt. rewrite firstn_app, firstn_all, Nat.sub_diag. cbn [firstn].
  rewrite app_nil_r. f_equal. f_equal.
  rewrite skipn_app, skipn_all2 by lia.
  replace (List.length l1 + 1 - List.length l1) with 1 by lia. reflexivity.
Qed.

Lemma replaceAt_past {A : Type} (index : nat) (x : A) (a : list A) :
  List.length a <= index -> replaceAt index x a = (a ++ [x])%list.
Proof.
  intros H. unfold replaceAt.
  rewrite firstn_all2 by exact H. now rewrite skipn_all2 by lia.
Qed.

Lemma nth_error_replaced {A : Type} (l1 l2 : list A) (old x : A) (j : nat) :
  j <> List.length l1 ->
  nth_error (l1 ++ x :: l2) j = nth_error (l1 ++ old :: l2) j.
Proof.
  intros Hj. destruct (Nat.lt_ge_cases j (List.length l1)) as [Hlt|Hge].
  - now rewrite !nth_error_app1 by exact Hlt.
  - rewrite !nth_error_app2 by exact Hge.
    destruct (j - List.length l1) as [|k] eqn:E; [lia|reflexivity].
Qed.

(** X13: [updateCaseKey] at a row of the Case designer renames that row and
    nothing else: as many rows, the same chains in the same order, every
    other row as it was; at an index past the rows it throws. *)
Theorem updateCaseKey_renames_one_row (cases : list (string * ChainSpec))
    (index : nat) (key : string) :
  (index < List.length cases ->
   exists cases',
     updateCaseKey cases index key = Ok cases'
     /\ List.length cases' = List.length cases
     /\ map snd cases' = map snd cases
     /\ option_map fst (nth_error cases' index) = Some key
     /\ forall j, j <> index -> nth_error cases' j = nth_error cases j)
  /\ (List.length cases <= index ->
      updateCaseKey cases index key = Throw "TypeError").
Proof.
  unfold updateCaseKey. split.
  - intros H. destruct (nth_error cases index) as [item|] eqn:E.
    + apply nth_error_split in E as (l1 & l2 & -> & <-).
      rewrite replaceAt_split. eexists. split; [reflexivity|].
      repeat split.
      * rewrite !length_app. reflexivity.
      * rewrite !map_app. reflexivity.
      * rewrite nth_error_app2, Nat.sub_diag by lia. reflexivity.
      * intros j Hj. now apply nth_error_replaced.
    + apply nth_error_None in E. lia.
  - intros H. apply nth_error_None in H. now rewrite H.
Qed.

Lemma updateCaseKey_renames_one_row_witness :
  let a := llm_spec (mkLLMSpec 1 [] EmptyString EmptyString EmptyString) in
  let b := sequential_spec 2 [] in
  updateCaseKey [("yes", a); ("no", b)] 1 "maybe" = Ok [("yes", a); ("maybe", b)]
  /\ updateCaseKey [("yes", a); ("no", b)] 2 "maybe" = Throw "TypeError".
Proof.
  intros a b.
  destruct (updateCaseKey_renames_one_row [("yes", a); ("no", b)] 1 "maybe")
    as [H1 _].
  destruct (updateCaseKey_renames_one_row [("yes", a); ("no", b)] 2 "maybe")
    as [_ H2].
  split; [|apply H2; simpl; lia].
  destruct H1 as (cases' & E & _); [simpl; lia|].
  reflexivity.
Defined.

(** X14: [updateFormatter] at a row of the Reformat designer replaces that
    row and nothing else; at an index past the rows it appends the row
    (it never throws). *)
Theorem updateFormatter_replaces_or_appends (formatters : list (string * string))
    (index : nat) (key value : string) :
  (index < List.length formatters ->
   List.length (updateFormatter formatters index key value) = List.length formatters
   /\ nth_error (updateFormatter formatters index key value) index
      = Some (key, value)
   /\ forall j, j <> index ->
        nth_error (updateFormatter formatters index key value) j
        = nth_error formatters j)
  /\ (List.length formatters <= index ->
      updateFormatter formatters index key value
      = (formatters ++ [(key, value)])%list).
Proof.
  unfold updateFormatter. split.
  - intros H. destruct (nth_error formatters index) as [item|] eqn:E.
    + apply nth_error_split in E as (l1 & l2 & -> & <-).
      rewrite replaceAt_split. repeat split.
      * rewrite !length_app. reflexivity.
      * rewrite nth_error_app2, Nat.sub_diag by lia. reflexivity.
      * intros j Hj. now apply nth_error_replaced.
    + apply nth_error_None in E. lia.
  - apply replaceAt_past.
Qed.

Lemma updateFormatter_replaces_or_appends_witness :
  updateFormatter [("a", "{x}"); ("b", "{y}")] 0 "a" "{x} {z}"
  = [("a", "{x} {z}"); ("b", "{y}")]
  /\ updateFormatter [("a", "{x}"); ("b", "{y}")] 5 "c" "new"
     = [("a", "{x}"); ("b", "{y}"); ("c", "new")].
Proof.
  destruct (updateFormatter_replaces_or_appends [("a", "{x}"); ("b", "{y}")]
              5 "c" "new") as [_ H2].
  split; [reflexivity|]. apply H2. simpl. lia.
Defined.

(** ** Objects built from rows *)

Lemma assoc_obj_set {A : Type} (k k' : string) (v : A) (o : list (string * A)) :
  Sets.assoc k (obj_set k' v o) = if k =? k' then Some v else Sets.assoc k o.
Proof.
  induction o as [|[k0 v0] o IH]; simpl.
  - now destruct (k =? k').
  - destruct (String.eqb_spec k' k0) as [->|Hne]; simpl.
    + now destruct (k =? k0).
    + rewrite IH. destruct (String.eqb_spec k k0) as [->|]; [|reflexivity].
      destruct (String.eqb_spec k0 k'); [congruence|reflexivity].
Qed.

Lemma assoc_fold_set {A : Type} (k : string) (entries o : list (string * A)) :
  Sets.assoc k (fold_left (fun o kv => obj_set (fst kv) (snd kv) o) entries o)
  = match lastAssoc k entries with
    | Some v => Some v
    | None => Sets.assoc k o
    end.
Proof.
  revert o. induction entries as [|[k0 v0] entries IH]; intros o; [reflexivity|].
  cbn [fold_left lastAssoc fst snd]. rewrite IH.
  destruct (lastAssoc k entries); [reflexivity|].
  rewrite assoc_obj_set. now destruct (k =? k0).
Qed.

Lemma assoc_fromEntries {A : Type} (k : string) (entries : list (string * A)) :
  Sets.assoc k (Object_fromEntries entries) = lastAssoc k entries.
Proof.
  unfold Object_fromEntries. rewrite assoc_fold_set.
  now destruct (lastAssoc k entries).
Qed.

Lemma assoc_obj_delete {A : Type} (k k' : string) (o : list (string * A)) :
  Sets.assoc k (obj_delete k' o) = if k =? k' then None else Sets.assoc k o.
Proof.
  unfold obj_delete. induction o as [|[k0 v0] o IH]; simpl.
  - now destruct (k =? k').
  - destruct (String.eqb_spec k' k0) as [->|Hne]; simpl.
    + rewrite IH. destruct (String.eqb_spec k k0) as [->|]; reflexivity.
    + rewrite IH. destruct (String.eqb_spec k k0) as [->|]; [|reflexivity].
      destruct (String.eqb_spec k0 k'); [congruence|reflexivity].
Qed.

Lemma obj_set_keys {A : Type} (k : string) (v : A) (o : list (string * A)) :
  map fst (obj_set k v o)
  = if existsb (String.eqb k) (map fst o) then map fst o
    else (map fst o ++ [k])%list.
Proof.
  induction o as [|[k0 v0] o IH]; simpl; [reflexivity|].
  destruct (String.eqb_spec k k0) as [->|Hne]; simpl; [reflexivity|].
  rewrite IH. now destruct (existsb (String.eqb k) (map fst o)).
Qed.

Lemma obj_set_NoDup {A : Type} (k : string) (v : A) (o : list (string * A)) :
  NoDup (map fst o) -> NoDup (map fst (obj_set k v o)).
Proof.
  intros H. rewrite obj_set_keys.
  destruct (existsb (String.eqb k) (map fst o)) eqn:E; [exact H|].
  apply NoDup_app; [exact H|repeat constructor; intros []|].
  intros x Hx [Hk|[]]. subst x.
  assert (existsb (String.eqb k) (map fst o) = true); [|congruence].
  apply existsb_exists. exists k. split; [exact Hx|apply String.eqb_refl].
Qed.

Lemma fromEntries_NoDup {A : Type} (entries : list (string * A)) :
  NoDup (map fst (Object_fromEntries entries)).
Proof.
  unfold Object_fromEntries.
  assert (H : forall o : list (string * A), NoDup (map fst o) ->
            NoDup (map fst (fold_left (fun o kv => obj_set (fst kv) (snd kv) o)
                              entries o))).
  { induction entries as [|kv entries IH]; intros o Ho; [exact Ho|].
    cbn [fold_left]. apply IH. now apply obj_set_NoDup. }
  apply H. constructor.
Qed.

Lemma obj_delete_NoDup {A : Type} (k : string) (o : list (string * A)) :
  NoDup (map fst o) -> NoDup (map fst (obj_delete k o)).
Proof.
  unfold obj_delete. induction o as [|[k0 v0] o IH]; simpl; [auto|].
  intros H. inversion H as [|? ? Hn Hd]; subst.
  destruct (negb (k =? k0)); simpl; [|now apply IH].
  constructor; [|now apply IH].
  intros Hin. apply Hn. apply in_map_iff in Hin as ([k1 v1] & <- & Hin).
  apply filter_In in Hin as [Hin _]. apply in_map_iff. now exists (k1, v1).
Qed.

(** X15: the spec the Reformat designer sends carries one formatter per
    distinct output key of its rows, and under each key the text of the
    last row with that key: an earlier row with the same key is dropped. *)
Theorem reformat_rows_last_key_wins (spec : ReformatSpec)
    (rows : list (string * string)) (variables : list string) :
  let sent := reformatEmitted spec rows variables in
  (forall k, Sets.assoc k (formatters sent) = lastAssoc k rows)
  /\ NoDup (map fst (formatters sent))
  /\ reformat_chain_id sent = reformat_chain_id spec
  /\ reformat_input_keys sent = variables.
Proof.
  cbn. repeat split.
  - intros k. apply assoc_fromEntries.
  - apply fromEntries_NoDup.
Qed.

Lemma lastAssoc_In {A : Type} (k : string) (entries : list (string * A)) (v : A) :
  lastAssoc k entries = Some v -> In (k, v) entries.
Proof.
  induction entries as [|[k0 v0] entries IH]; simpl; [discriminate|].
  destruct (lastAssoc k entries) as [r|].
  - intros H; injection H as ->. right. now apply IH.
  - destruct (String.eqb_spec k k0) as [->|]; [|discriminate].
    intros H; injection H as ->. now left.
Qed.

Section CaseRows.
Variable find : nat -> option ChainSpec.

Lemma Array_map_found (cases : list (string * ChainSpec)) :
  (forall item, In item cases -> find (chain_id (snd item)) <> None) ->
  exists entries,
    Array_map (fun item => match mustFind find (chain_id (snd item)) with
                           | Ok chain => Ok (fst item, chain)
                           | Throw e => Throw e
                           end) cases = Ok entries
    /\ forall k, lastAssoc k entries
                 = match lastAssoc k cases with
                   | Some chain => find (chain_id chain)
                   | None => None
                   end.
Proof.
  induction cases as [|[k0 c0] cases IH]; intros H.
  - exists []. split; reflexivity.
  - destruct IH as (entries & E & Hl); [intros item Hi; apply H; now right|].
    cbn [Array_map fst snd]. unfold mustFind at 1.
    destruct (find (chain_id c0)) as [f0|] eqn:E0;
      [|exfalso; apply (H (k0, c0)); [now left|exact E0]].
    rewrite E. eexists. split; [reflexivity|].
    intros k. cbn [lastAssoc]. rewrite Hl.
    destruct (lastAssoc k cases) as [chain|] eqn:El.
    + destruct (find (chain_id chain)) eqn:Ef; [reflexivity|].
      exfalso. apply (H (k, chain)); [right; now apply lastAssoc_In|exact Ef].
    + destruct (k =? k0); [exact (eq_sym E0)|reflexivity].
Qed.

Lemma Array_map_missing (before after : list (string * ChainSpec))
    (item : string * ChainSpec) :
  (forall row, In row before -> find (chain_id (snd row)) <> None) ->
  find (chain_id (snd item)) = None ->
  Array_map (fun item => match mustFind find (chain_id (snd item)) with
                         | Ok chain => Ok (fst item, chain)
                         | Throw e => Throw e
                         end) (before ++ item :: after)
  = Throw ("Chain " ++ Str.ofNat (chain_id (snd item)) ++ " not found.").
Proof.
  intros Hb Hi. induction before as [|[k0 c0] before IH].
  - cbn [app Array_map]. unfold mustFind. now rewrite Hi.
  - cbn [app Array_map fst snd]. unfold mustFind at 1.
    destruct (find (chain_id c0)) eqn:E0;
      [|exfalso; apply (Hb (k0, c0)); [now left|exact E0]].
    rewrite IH; [reflexivity|]. intros row Hr. apply Hb. now right.
Qed.
End CaseRows.

(** X16: when the chain of every row of the Case designer is found,
    [computeCases] returns as default case the chain found for the last row
    keyed [_default] (none if there is no such row) and as cases, under
    each distinct key other than [_default], the chain found for the last
    row with that key: an earlier row with the same key is dropped. *)
Theorem computeCases_last_row_wins (find : nat -> option ChainSpec)
    (cases : list (string * ChainSpec)) :
  (forall item, In item cases -> find (chain_id (snd item)) <> None) ->
  exists defaultCase updated,
    computeCases find cases = Ok (defaultCase, updated)
    /\ defaultCase = match lastAssoc "_default" cases with
                     | Some chain => find (chain_id chain)
                     | None => None
                     end
    /\ (forall k, Sets.assoc k updated
                  = if k =? "_default" then None
                    else match lastAssoc k cases with
                         | Some chain => find (chain_id chain)
                         | None => None
                         end)
    /\ NoDup (map fst updated).
Proof.
  intros H. destruct (Array_map_found find cases H) as (entries & E & Hl).
  unfold computeCases. rewrite E. eexists. eexists. split; [reflexivity|].
  repeat split.
  - rewrite assoc_fromEntries. apply Hl.
  - intros k. rewrite assoc_obj_delete, assoc_fromEntries, Hl. reflexivity.
  - apply obj_delete_NoDup, fromEntries_NoDup.
Qed.

Lemma computeCases_last_row_wins_witness :
  let a := llm_spec (mkLLMSpec 1 [] EmptyString EmptyString EmptyString) in
  let b := llm_spec (mkLLMSpec 2 [] EmptyString EmptyString EmptyString) in
  let c := sequential_spec 3 [] in
  let tree := sequential_spec 0 [a; b; c] in
  computeCases (fun id => SpecControl.findByChainId id tree)
    [("yes", a); ("_default", c); ("yes", b)]
  = Ok (Some c, [("yes", b)]).
Proof.
  intros a b c tree.
  destruct (computeCases_last_row_wins
              (fun id => SpecControl.findByChainId id tree)
              [("yes", a); ("_default", c); ("yes", b)])
    as (d & u & E & _).
  - intros item [<-|[<-|[<-|[]]]]; discriminate.
  - reflexivity.
Defined.

(** X17: when the chain of some row of the Case designer is not found,
    [computeCases] throws, naming the id of the first such row. *)
Theorem computeCases_missing_chain (find : nat -> option ChainSpec)
    (before after : list (string * ChainSpec)) (item : string * ChainSpec) :
  (forall row, In row before -> find (chain_id (snd row)) <> None) ->
  find (chain_id (snd item)) = None ->
  computeCases find (before ++ item :: after)
  = Throw ("Chain " ++ Str.ofNat (chain_id (snd item)) ++ " not found.").
Proof.
  intros Hb Hi. unfold computeCases.
  now rewrite (Array_map_missing find before after item Hb Hi).
Qed.

Lemma computeCases_missing_chain_witness :
  let a := llm_spec (mkLLMSpec 1 [] EmptyString EmptyString EmptyString) in
  let gone := llm_spec (mkLLMSpec 7 [] EmptyString EmptyString EmptyString) in
  let tree := sequential_spec 0 [a] in
  computeCases (fun id => SpecControl.findByChainId id tree)
    ([("yes", a)] ++ ("no", gone) :: [("_default", a)])
  = Throw "Chain 7 not found.".
Proof.
  intros a gone tree.
  apply (computeCases_missing_chain
           (fun id => SpecControl.findByChainId id tree)
           [("yes", a)] [("_default", a)] ("no", gone)).
  - intros row [<-|[]]. discriminate.
  - reflexivity.
Defined.

Lemma lastAssoc_app {A : Type} (k k' : string) (v : A) (entries : list (string * A)) :
  lastAssoc k (entries ++ [(k', v)])
  = if k =? k' then Some v else lastAssoc k entries.
Proof.
  induction entries as [|[k0 v0] entries IH]; simpl.
  - reflexivity.
  - rewrite IH. destruct (k =? k'); [reflexivity|].
    now destruct (lastAssoc k entries).
Qed.

(** X18: after [addFormatter] the spec the Reformat designer sends has the
    empty text under the key [output_key_n], n the number of rows before,
    and every other key as before: a row that already carried that key no
    longer contributes its text. *)
Theorem added_formatter_takes_its_key (spec : ReformatSpec)
    (rows : list (string * string)) (variables : list string) :
  let key := "output_key_" ++ Str.ofNat (List.length rows) in
  let before := formatters (reformatEmitted spec rows variables) in
  let after := formatters (reformatEmitted spec (addFormatter rows) variables) in
  List.length (addFormatter rows) = List.length rows + 1
  /\ Sets.assoc key after = Some EmptyString
  /\ forall k, k <> key -> Sets.assoc k after = Sets.assoc k before.
Proof.
  cbn zeta. unfold reformatEmitted, addFormatter. cbn [formatters].
  split; [now rewrite length_app|]. split.
  - now rewrite assoc_fromEntries, lastAssoc_app, String.eqb_refl.
  - intros k Hk. rewrite !assoc_fromEntries, lastAssoc_app.
    destruct (String.eqb_spec k ("output_key_" ++ Str.ofNat (List.length rows)));
      [contradiction|reflexivity].
Qed.

Lemma added_formatter_takes_its_key_witness :
  let spec := mkReformatSpec 4 [] [] in
  let rows := [("greeting", "Hi {name}"); ("output_key_2", "{a}-{b}")] in
  Sets.assoc "greeting"
    (formatters (reformatEmitted spec (addFormatter rows) ["a"; "b"]))
  = Some "Hi {name}"
  /\ Sets.assoc "output_key_2"
       (formatters (reformatEmitted spec (addFormatter rows) ["a"; "b"]))
     = Some EmptyString.
Proof.
  intros spec rows.
  destruct (added_formatter_takes_its_key spec rows ["a"; "b"]) as (_ & H1 & H2).
  split; [|exact H1].
  rewrite H2; [reflexivity|discriminate].
Defined.
